(** * otaku-shi: the request queue and the recommendation endpoint

    A shallow embedding of the server of the repository
    (rate-limited request queue, HTTP handler of [/api/recommend] and the
    three recommendation assemblers) together with the properties its
    specification states about them.

    The queue lives in a single-threaded JavaScript runtime.  Its shared
    state is the array [queue] and the flag [isProcessing]; the runtime
    contributes the activations of [processQueue] that are suspended at
    [await requestFn()], the pending [setTimeout(processQueue, ...)]
    timers and a clock.  All of them are fields of [state]; the things the
    environment can do (call [enqueueRequest], settle a work function,
    let time pass, fire a due timer) are the [action]s of a labelled step
    function. *)

From Stdlib Require Import String Ascii ZArith DecimalString Lia Bool Arith List.
Import ListNotations.

Set Warnings "-register-all".

(** ** Small list helpers *)

(** [extract p l] removes the first element of [l] satisfying [p] and
    returns it with the remaining list. *)
Fixpoint extract {A : Type} (p : A -> bool) (l : list A) : option (A * list A) :=
  match l with
  | [] => None
  | x :: r =>
      if p x then Some (x, r)
      else match extract p r with
           | Some (y, r') => Some (y, x :: r')
           | None => None
           end
  end.

Module RequestQueue.

(** Jikan API has a rate limit of 1 request per second. *)
Definition RATE_LIMIT_DELAY : Z := 1000.

Section Queue.

(** Work functions are opaque thunks; [V] and [E] are the values they
    produce and the errors they fail with. *)
Context {W V E : Type}.

Inductive outcome : Type :=
| Resolved (v : V)
| Rejected (e : E).

(** The object [{ requestFn, resolve, reject }] pushed by
    [enqueueRequest].  [resolve] and [reject] are the two resolving
    functions of one promise, which [handle] identifies: promises are
    numbered in creation order. *)
Record job : Type := mkJob { requestFn : W; handle : nat }.

(** What an observer of the queue sees, with the clock value at which
    it happens: a call of [enqueueRequest], the call [requestFn()] of a
    job, and the call of [resolve] or [reject] of a job. *)
Inductive event : Type :=
| Submitted (j : job) (t : Z)
| Invoked (j : job) (t : Z)
| Delivered (j : job) (o : outcome) (t : Z).

Record state : Type := mkState {
  queue : list job;          (* const queue = [] *)
  isProcessing : bool;       (* let isProcessing = false *)
  awaiting : list job;       (* activations suspended at [await requestFn()] *)
  timers : list Z;           (* deadlines of pending setTimeout(processQueue, ..) *)
  now : Z;                   (* clock, in milliseconds *)
  promises : nat;            (* promises created by enqueueRequest so far *)
  trace : list event         (* observation log, oldest event first *)
}.

Definition init : state :=
  {| queue := []; isProcessing := false; awaiting := []; timers := [];
     now := 0; promises := 0; trace := [] |}.

(** [processQueue] up to its suspension at [await requestFn()]:
    an empty queue clears the flag and returns; otherwise the flag is
    set, the head is shifted off and its work function is invoked. *)
Definition processQueue (s : state) : state :=
  match queue s with
  | [] =>
      {| queue := []; isProcessing := false; awaiting := awaiting s;
         timers := timers s; now := now s; promises := promises s;
         trace := trace s |}
  | j :: q =>
      {| queue := q; isProcessing := true; awaiting := awaiting s ++ [j];
         timers := timers s; now := now s; promises := promises s;
         trace := trace s ++ [Invoked j (now s)] |}
  end.

(** The rest of [processQueue], run when the awaited work function of
    [j] has settled with [o]: [resolve(result)] or [reject(error)],
    then [setTimeout(processQueue, RATE_LIMIT_DELAY)].  [rest] is what
    remains suspended. *)
Definition processQueue_resume (j : job) (o : outcome) (rest : list job)
    (s : state) : state :=
  {| queue := queue s; isProcessing := isProcessing s; awaiting := rest;
     timers := timers s ++ [(now s + RATE_LIMIT_DELAY)%Z];
     now := now s; promises := promises s;
     trace := trace s ++ [Delivered j o (now s)] |}.

(** [queue.push({ requestFn, resolve, reject })] inside the executor of
    the new promise. *)
Definition push (fn : W) (s : state) : state :=
  {| queue := queue s ++ [mkJob fn (promises s)];
     isProcessing := isProcessing s; awaiting := awaiting s;
     timers := timers s; now := now s; promises := S (promises s);
     trace := trace s ++ [Submitted (mkJob fn (promises s)) (now s)] |}.

(** [enqueueRequest(requestFn)]: returns the new promise and the state
    after the executor has run. *)
Definition enqueueRequest (fn : W) (s : state) : nat * state :=
  let s1 := push fn s in
  (promises s, if isProcessing s1 then s1 else processQueue s1).

(** What the environment does to the queue. *)
Inductive action : Type :=
| Call (fn : W)                    (* somebody calls enqueueRequest(fn) *)
| Settle (id : nat) (o : outcome)  (* the work function of job [id] settles *)
| Fire (d : Z)                     (* the timer with deadline [d] fires *)
| Elapse (dt : Z).                 (* [dt] milliseconds pass *)

Definition tick (dt : Z) (s : state) : state :=
  {| queue := queue s; isProcessing := isProcessing s;
     awaiting := awaiting s; timers := timers s; now := (now s + dt)%Z;
     promises := promises s; trace := trace s |}.

Definition clear_timer (ts : list Z) (s : state) : state :=
  {| queue := queue s; isProcessing := isProcessing s;
     awaiting := awaiting s; timers := ts; now := now s;
     promises := promises s; trace := trace s |}.

(** One step of the runtime; [None] when the action is not enabled
    (no such suspended job, no such timer or timer not yet due, time
    running backwards). *)
Definition step (a : action) (s : state) : option state :=
  match a with
  | Call fn => Some (snd (enqueueRequest fn s))
  | Settle id o =>
      match extract (fun j => Nat.eqb (handle j) id) (awaiting s) with
      | Some (j, rest) => Some (processQueue_resume j o rest s)
      | None => None
      end
  | Fire d =>
      match extract (Z.eqb d) (timers s) with
      | Some (_, ts) =>
          if (d <=? now s)%Z then Some (processQueue (clear_timer ts s))
          else None
      | None => None
      end
  | Elapse dt =>
      if (0 <=? dt)%Z then Some (tick dt s) else None
  end.

Fixpoint run (acts : list action) (s : state) : option state :=
  match acts with
  | [] => Some s
  | a :: rest =>
      match step a s with
      | Some s' => run rest s'
      | None => None
      end
  end.

Definition reachable (s : state) : Prop :=
  exists acts, run acts init = Some s.

(** Projections of the observation log. *)
Definition submitted_of (e : event) : list job :=
  match e with Submitted j _ => [j] | _ => [] end.
Definition invoked_of (e : event) : list job :=
  match e with Invoked j _ => [j] | _ => [] end.
Definition delivered_of (e : event) : list job :=
  match e with Delivered j _ _ => [j] | _ => [] end.
Definition delivery_time_of (e : event) : list Z :=
  match e with Delivered _ _ t => [t] | _ => [] end.
Definition time_of (e : event) : Z :=
  match e with Submitted _ t | Invoked _ t | Delivered _ _ t => t end.

Definition submitted_jobs (tr : list event) : list job := flat_map submitted_of tr.
Definition invoked_jobs (tr : list event) : list job := flat_map invoked_of tr.
Definition delivered_jobs (tr : list event) : list job := flat_map delivered_of tr.
Definition delivery_times (tr : list event) : list Z := flat_map delivery_time_of tr.

(** The single execution slot, replayed over an observation log: a work
    function may be invoked only when no other one is running, and an
    outcome is delivered only for the one that is running.  The result is
    [None] as soon as two executions overlap, and otherwise the jobs
    whose work function is running at the end of the log. *)
Definition occupy (slot : option (list job)) (e : event) : option (list job) :=
  match e, slot with
  | Submitted _ _, _ => slot
  | Invoked j _, Some [] => Some [j]
  | Delivered j _ _, Some [r] =>
      if Nat.eqb (handle r) (handle j) then Some [] else None
  | _, _ => None
  end.

Definition exec_slot (tr : list event) : option (list job) :=
  fold_left occupy tr (Some []).

(** A schedule that lets the queue run dry: each job in turn settles
    with the outcome [oc] gives it, the fixed delay passes and the timer
    fires.  [t] is the clock value at which the first job of [js] was
    invoked. *)
Fixpoint cycles (oc : job -> outcome) (js : list job) (t : Z) : list action :=
  match js with
  | [] => []
  | j :: r =>
      Settle (handle j) (oc j) :: Elapse RATE_LIMIT_DELAY
        :: Fire (t + RATE_LIMIT_DELAY)
        :: cycles oc r (t + RATE_LIMIT_DELAY)
  end.

Definition drain (oc : job -> outcome) (s : state) : list action :=
  match awaiting s, timers s with
  | j :: _, _ => cycles oc (j :: queue s) (now s)
  | [], d :: _ =>
      Elapse (Z.max 0 (d - now s)) :: Fire d
        :: cycles oc (queue s) (Z.max d (now s))
  | [], [] => []
  end.

(** A drain loop is active when an activation of [processQueue] is
    suspended at its [await] or its [setTimeout] is pending. *)
Definition loop_active (s : state) : Prop :=
  awaiting s <> [] \/ timers s <> [].

(** The part of the state the queue's control flow depends on. *)
Definition control (s : state) : list job * bool * list job * list Z * Z * nat :=
  (queue s, isProcessing s, awaiting s, timers s, now s, promises s).

(** The invariant of the runtime, preserved by every action. *)
Record invariant (s : state) : Prop := {
  inv_idle : isProcessing s = false ->
             queue s = [] /\ awaiting s = [] /\ timers s = [];
  inv_busy : isProcessing s = true ->
             length (awaiting s) + length (timers s) = 1;
  inv_ids : map handle (submitted_jobs (trace s)) = seq 0 (promises s);
  inv_fifo : invoked_jobs (trace s) ++ queue s = submitted_jobs (trace s);
  inv_running : delivered_jobs (trace s) ++ awaiting s
                = invoked_jobs (trace s);
  inv_slot : exec_slot (trace s) = Some (awaiting s);
  inv_clock : forall e, In e (trace s) -> (time_of e <= now s)%Z;
  inv_timer : forall t d, In t (delivery_times (trace s)) ->
              In d (timers s) -> (t + RATE_LIMIT_DELAY <= d)%Z;
  inv_rest : isProcessing s = false ->
             forall t, In t (delivery_times (trace s)) ->
             (t + RATE_LIMIT_DELAY <= now s)%Z;
  inv_spacing : forall j o t j' t',
      In (Delivered j o t) (trace s) -> In (Invoked j' t') (trace s) ->
      handle j < handle j' -> (t + RATE_LIMIT_DELAY <= t')%Z
}.

End Queue.

(** A concrete run, used to exercise the statements below: two jobs are
    submitted back to back, the first one fails with "upstream 500"
    (error code 500) at clock value 40, the delay passes and the timer
    fires. *)
Definition demo_prefix : list (@action nat nat nat) :=
  [Call 7; Call 8; Elapse 40].

Definition demo_suffix : list (@action nat nat nat) :=
  [Settle 0 (Rejected 500); Elapse 1000; Fire 1040].

Definition demo_busy : @state nat nat nat :=
  {| queue := [mkJob 8 1]; isProcessing := true; awaiting := [mkJob 7 0];
     timers := []; now := 40; promises := 2;
     trace := [Submitted (mkJob 7 0) 0; Invoked (mkJob 7 0) 0;
               Submitted (mkJob 8 1) 0] |}.

Definition demo_failed : @state nat nat nat :=
  {| queue := [mkJob 8 1]; isProcessing := true; awaiting := [];
     timers := [1040%Z]; now := 40; promises := 2;
     trace := [Submitted (mkJob 7 0) 0; Invoked (mkJob 7 0) 0;
               Submitted (mkJob 8 1) 0;
               Delivered (mkJob 7 0) (Rejected 500) 40] |}.

Definition demo_next : @state nat nat nat :=
  {| queue := []; isProcessing := true; awaiting := [mkJob 8 1];
     timers := []; now := 1040; promises := 2;
     trace := [Submitted (mkJob 7 0) 0; Invoked (mkJob 7 0) 0;
               Submitted (mkJob 8 1) 0;
               Delivered (mkJob 7 0) (Rejected 500) 40;
               Invoked (mkJob 8 1) 1040] |}.

(** The second job succeeds at clock value 1100; a second later the
    timer finds the queue empty and the loop stops. *)
Definition demo_finish : list (@action nat nat nat) :=
  [Elapse 60; Settle 1 (Resolved 3); Elapse 1000; Fire 2100].

Definition demo_idle : @state nat nat nat :=
  {| queue := []; isProcessing := false; awaiting := [];
     timers := []; now := 2100; promises := 2;
     trace := [Submitted (mkJob 7 0) 0; Invoked (mkJob 7 0) 0;
               Submitted (mkJob 8 1) 0;
               Delivered (mkJob 7 0) (Rejected 500) 40;
               Invoked (mkJob 8 1) 1040;
               Delivered (mkJob 8 1) (Resolved 3) 1100] |}.

Section Starts.

Context {W V E : Type}.

(** Further facts the runtime keeps about the starts of the work
    functions: an outcome is delivered no earlier than the invocation it
    answers, two invocations are at least the fixed delay apart, and the
    clock, which starts at 0, never shows a negative value. *)
Record start_invariant (s : @state W V E) : Prop := {
  si_after : forall j o td j' t,
      In (Delivered j o td) (trace s) -> In (Invoked j' t) (trace s) ->
      handle j = handle j' -> (t <= td)%Z;
  si_starts : forall j t j' t',
      In (Invoked j t) (trace s) -> In (Invoked j' t') (trace s) ->
      handle j < handle j' -> (t + RATE_LIMIT_DELAY <= t')%Z;
  si_origin : (0 <= now s)%Z /\
              forall e, In e (trace s) -> (0 <= time_of e)%Z
}.

Definition is_call (a : @action W V E) : bool :=
  match a with Call _ => true | _ => false end.

Definition is_settle (a : @action W V E) : bool :=
  match a with Settle _ _ => true | _ => false end.

(** The settlements of promise [p] in an observation log: the calls of
    its [resolve] or [reject], each with the job whose promise it is,
    the outcome passed and the clock value. *)
Definition settlement_of (p : nat) (e : @event W V E)
    : list (@job W * @outcome V E * Z) :=
  match e with
  | Delivered j o t => if Nat.eqb (handle j) p then [(j, o, t)] else []
  | _ => []
  end.

Definition settlements (p : nat) (tr : list (@event W V E))
    : list (@job W * @outcome V E * Z) :=
  flat_map (settlement_of p) tr.

End Starts.

End RequestQueue.

(** * The recommendation endpoint

    [POST /api/recommend] and the three assemblers.  Every upstream call
    goes through [enqueueRequest]; a caller sees it as one call that
    either yields the response or throws the failure of the work function,
    so the assemblers are written in a state-and-exception monad whose
    state is the list of URLs submitted to the queue so far. *)

Module Server.

Local Open Scope string_scope.

(** ** Strings *)

Definition dquote : string := String (ascii_of_nat 34) EmptyString.

(** [String.prototype.toLowerCase] on the letters A to Z, the letters of
    the genre names of the catalogue.  The language lower-cases the
    letters outside ASCII as well; here they stay as they are. *)
Definition lower_ascii (c : ascii) : ascii :=
  let n := nat_of_ascii c in
  if (65 <=? n)%nat && (n <=? 90)%nat then ascii_of_nat (n + 32) else c.

Fixpoint toLowerCase (s : string) : string :=
  match s with
  | EmptyString => EmptyString
  | String c r => String (lower_ascii c) (toLowerCase r)
  end.

(** [s.includes(sub)] *)
Fixpoint includes (s sub : string) : bool :=
  if String.prefix sub s then true
  else match s with
       | EmptyString => false
       | String _ r => includes r sub
       end.

Definition unreserved (c : ascii) : bool :=
  let n := nat_of_ascii c in
  ((48 <=? n)%nat && (n <=? 57)%nat) || ((65 <=? n)%nat && (n <=? 90)%nat)
  || ((97 <=? n)%nat && (n <=? 122)%nat)
  || existsb (Nat.eqb n) [45; 95; 46; 33; 126; 42; 39; 40; 41]%nat.

Definition hex_digit (n : nat) : ascii :=
  ascii_of_nat (if (n <? 10)%nat then 48 + n else 55 + n).

(** [encodeURIComponent], on the bytes of the UTF-8 form of the string. *)
Fixpoint encodeURIComponent (s : string) : string :=
  match s with
  | EmptyString => EmptyString
  | String c r =>
      if unreserved c then String c (encodeURIComponent r)
      else String "%" (String (hex_digit (nat_of_ascii c / 16))
             (String (hex_digit (nat_of_ascii c mod 16))
                (encodeURIComponent r)))
  end.

(** The decimal digits of an integer: the string of a number that is an
    integer below 10^21 in absolute value, as the identifiers, counts and
    lengths met here are.  (From 10^21 on the language prints an
    exponent.) *)
Definition decimal (n : Z) : string := NilZero.string_of_int (Z.to_int n).

(** [x || d] for a string-valued field that may be missing. *)
Definition or_default (x : option string) (d : string) : string :=
  match x with
  | Some s => if String.eqb s "" then d else s
  | None => d
  end.

(** ** JavaScript values read from a JSON document *)

Inductive jsval : Type :=
| JUndefined
| JNull
| JBool (b : bool)
| JNum (n : Z)
| JStr (s : string)
| JArr (l : list jsval)
| JObj (fields : list (string * jsval)).

(** Truthiness, as tested by [!x], [x && ..] and [if (x)]. *)
Definition truthy (v : jsval) : bool :=
  match v with
  | JUndefined | JNull => false
  | JBool b => b
  | JNum n => negb (n =? 0)%Z
  | JStr s => negb (String.eqb s "")
  | JArr _ | JObj _ => true
  end.

(** [o.name] for an own property of a parsed object; the last binding of
    a repeated key wins, as in [JSON.parse]. *)
Fixpoint lookup (name : string) (fields : list (string * jsval)) : jsval :=
  match fields with
  | [] => JUndefined
  | (k, v) :: r =>
      match lookup name r with
      | JUndefined => if String.eqb k name then v else JUndefined
      | found => found
      end
  end.

(** [v.length], for [v] not [undefined] or [null]. *)
Definition js_length (v : jsval) : jsval :=
  match v with
  | JStr s => JNum (Z.of_nat (String.length s))
  | JArr l => JNum (Z.of_nat (List.length l))
  | JObj fields => lookup "length" fields
  | _ => JUndefined
  end.

(** [v === 0] *)
Definition is_zero (v : jsval) : bool :=
  match v with
  | JNum n => (n =? 0)%Z
  | _ => false
  end.

(** The string a value converts to, in template literals, in
    [encodeURIComponent] and in [Array.prototype.join], when its
    conversion succeeds.  Whether it does is told by [to_string] below:
    the conversion of an object that has a property of its own named
    [toString] throws.  The handler evaluates [titles.join(', ')] before
    it calls an assembler, so the titles an assembler receives from it
    are values whose conversion succeeds. *)
Fixpoint ToString (v : jsval) : string :=
  match v with
  | JUndefined => "undefined"
  | JNull => "null"
  | JBool true => "true"
  | JBool false => "false"
  | JNum n => decimal n
  | JStr s => s
  | JArr l =>
      String.concat ","
        (map (fun x => match x with
                       | JUndefined | JNull => ""
                       | _ => ToString x
                       end) l)
  | JObj _ => "[object Object]"
  end.

Definition join (sep : string) (l : list jsval) : string :=
  String.concat sep
    (map (fun x => match x with
                   | JUndefined | JNull => ""
                   | _ => ToString x
                   end) l).

(** [a[i]] *)
Definition index (l : list jsval) (i : nat) : jsval := nth i l JUndefined.

(** ** Failures *)

(** What can be thrown: a [TypeError] raised by the language (the text of
    such messages is the engine's and is represented by a short
    description), or the failure of an upstream request. *)
Inductive error : Type :=
| TypeError (what : string)
| RequestError (msg : string).

Definition message (e : error) : string :=
  match e with
  | TypeError what => what
  | RequestError msg => msg
  end.

Inductive result (A : Type) : Type :=
| Ok (a : A)
| Throw (e : error).
Arguments Ok {A} a.
Arguments Throw {A} e.

Definition rbind {A B : Type} (x : result A) (f : A -> result B) : result B :=
  match x with
  | Ok a => f a
  | Throw e => Throw e
  end.

Fixpoint rmap {A B : Type} (f : A -> result B) (l : list A) : result (list B) :=
  match l with
  | [] => Ok []
  | x :: r => rbind (f x) (fun y => rbind (rmap f r) (fun ys => Ok (y :: ys)))
  end.

Fixpoint rfilter {A : Type} (f : A -> result bool) (l : list A) : result (list A) :=
  match l with
  | [] => Ok []
  | x :: r =>
      rbind (f x) (fun b =>
      rbind (rfilter f r) (fun ys => Ok (if b then x :: ys else ys)))
  end.

(** ** String conversion that can fail

    An object parsed from JSON converts to ["[object Object]"] through
    the [toString] method every object inherits.  A property of its own
    named [toString] hides that method; no parsed value can be called,
    the inherited [valueOf] returns the object itself, and the
    conversion throws a [TypeError].  An array converts its elements in
    turn, [undefined] and [null] to the empty string, and fails with the
    first element that fails. *)
Definition has_own (name : string) (fields : list (string * jsval)) : bool :=
  existsb (fun kv => String.eqb (fst kv) name) fields.

Definition not_primitive : error :=
  TypeError "cannot convert object to primitive value".

Fixpoint to_string (v : jsval) : result string :=
  match v with
  | JUndefined => Ok "undefined"
  | JNull => Ok "null"
  | JBool true => Ok "true"
  | JBool false => Ok "false"
  | JNum n => Ok (decimal n)
  | JStr s => Ok s
  | JArr l =>
      rbind
        ((fix each (l : list jsval) : result (list string) :=
            match l with
            | [] => Ok []
            | x :: r =>
                rbind (match x with
                       | JUndefined | JNull => Ok ""
                       | _ => to_string x
                       end)
                      (fun y => rbind (each r) (fun ys => Ok (y :: ys)))
            end) l)
        (fun pieces => Ok (String.concat "," pieces))
  | JObj fields =>
      if has_own "toString" fields then Throw not_primitive
      else Ok "[object Object]"
  end.

(** [a.join(sep)] *)
Definition join_strings (sep : string) (l : list jsval) : result string :=
  rbind (rmap (fun x => match x with
                        | JUndefined | JNull => Ok ""
                        | _ => to_string x
                        end) l)
        (fun pieces => Ok (String.concat sep pieces)).

(** [{ .., name = d }]: the default stands in for a property that is
    [undefined]. *)
Definition defaulted (d v : jsval) : jsval :=
  match v with
  | JUndefined => d
  | _ => v
  end.

(** ** Upstream payloads (the catalogue's schema) *)

Record genre : Type := mkGenre { genre_id : Z; genre_name : string }.

(** One catalogue entry.  [creators] are the names in [authors] (manga)
    or [studios] (anime); [count] is [chapters] or [episodes].  A field
    whose absence the code reads through ([authors?.], [type ||],
    [synopsis ||], [genres || []], [background &&], [demographics &&]) is
    optional. *)
Record media : Type := mkMedia {
  mal_id : Z;
  title : string;
  creators : option (list string);
  media_type : option string;
  media_genres : option (list genre);
  synopsis : option string;
  image_url : jsval;
  url : jsval;
  score : jsval;
  count : jsval;
  background : option string;
  demographics : option (list string)
}.

(** One element of [/recommendations]: [rec.entry.mal_id],
    [rec.entry.title], [rec.votes]. *)
Record suggestion : Type := mkSuggestion {
  entry_id : Z;
  entry_title : string;
  votes : Z
}.

(** The upstream catalogue: what [axios.get(url)] answers to the
    [n]-th request of this HTTP exchange ([data.data] of the response),
    or the failure it rejects with.  The three fields are the three shapes
    of [data.data] the server reads: a list of entries, a list of
    suggestions, a single entry. *)
Record catalogue : Type := mkCatalogue {
  get_list : nat -> string -> result (list media);
  get_suggestions : nat -> string -> result (list suggestion);
  get_item : nat -> string -> result media
}.

(** ** The response *)

Record recommendation : Type := mkRecommendation {
  rec_title : string;
  creator : string;
  rec_type : string;
  rec_genres : list string;
  description : string;
  similarTo : jsval;
  whyRecommended : string;
  image : jsval;
  rec_url : jsval;
  rec_score : jsval;
  rec_count : jsval
}.

(** The JSON document sent back. *)
Inductive document : Type :=
| ErrorDoc (error_text : string) (details : option string)
| RecommendationsDoc (recommendations : list recommendation)
    (baseTitle : string) (mediaType : string).

(** [res.status(n).json(doc)]; [res.json(doc)] has status 200. *)
Record response : Type := mkResponse { status : nat; body : document }.

(** The two kinds of answer: recommendations with status 200, or an
    error document with an error status. *)
Definition is_success (r : response) : Prop :=
  status r = 200 /\ exists recs bt mt, body r = RecommendationsDoc recs bt mt.

Definition is_error (code : nat) (r : response) : Prop :=
  status r = code /\ exists text details, body r = ErrorDoc text details.

(** ** The monad of a request handler *)

(** State: the URLs submitted to the queue so far, oldest first. *)
Definition M (A : Type) : Type := list string -> result A * list string.

Definition ret {A : Type} (a : A) : M A := fun log => (Ok a, log).

Definition throw {A : Type} (e : error) : M A := fun log => (Throw e, log).

Definition bind {A B : Type} (m : M A) (f : A -> M B) : M B :=
  fun log =>
    match m log with
    | (Ok a, log') => f a log'
    | (Throw e, log') => (Throw e, log')
    end.

(** [try { m } catch (error) { h error }] *)
Definition try_catch {A : Type} (m : M A) (h : error -> M A) : M A :=
  fun log =>
    match m log with
    | (Ok a, log') => (Ok a, log')
    | (Throw e, log') => h e log'
    end.

Definition lift {A : Type} (x : result A) : M A := fun log => (x, log).

Declare Scope handler_scope.
Delimit Scope handler_scope with handler.
Notation "x <- m ;; k" := (bind m (fun x => k))
  (at level 61, m at next level, right associativity) : handler_scope.

Fixpoint mapM {A B : Type} (f : A -> M B) (l : list A) : M (list B) :=
  match l with
  | [] => ret []
  | x :: r => bind (f x) (fun y => bind (mapM f r) (fun ys => ret (y :: ys)))
  end.

(** [await enqueueRequest(() => axios.get(url))], for each shape of
    answer: the URL is submitted, and the caller gets the outcome of the
    work function. *)
Definition enqueue_list (up : catalogue) (u : string) : M (list media) :=
  fun log => (get_list up (List.length log) u, (log ++ [u])%list).

Definition enqueue_suggestions (up : catalogue) (u : string)
  : M (list suggestion) :=
  fun log => (get_suggestions up (List.length log) u, (log ++ [u])%list).

Definition enqueue_item (up : catalogue) (u : string) : M media :=
  fun log => (get_item up (List.length log) u, (log ++ [u])%list).

Section Handlers.

(** The upstream catalogue the server talks to. *)
Variable up : catalogue.

(** [Number(s) > 0] for a string [s]: the numeric reading of strings is
    the language's and is left open; it is consulted only when a filter
    field is an object whose [length] property is not a number. *)
Variable numeric_string_positive : string -> bool.

(** [v > 0] *)
Definition positive (v : jsval) : bool :=
  match v with
  | JUndefined | JNull => false
  | JBool b => b
  | JNum n => (0 <? n)%Z
  | JStr s => numeric_string_positive s
  | JArr _ | JObj _ => numeric_string_positive (ToString v)
  end.

(** [genres && genres.length > 0] *)
Definition filter_given (v : jsval) : bool :=
  truthy v && positive (js_length v).

(** [genres.map(g => g.toLowerCase())] *)
Definition lower_all (v : jsval) : result (list string) :=
  match v with
  | JArr l =>
      rmap (fun g => match g with
                     | JStr s => Ok (toLowerCase s)
                     | _ => Throw (TypeError "g.toLowerCase is not a function")
                     end) l
  | _ => Throw (TypeError "map is not a function")
  end.

(** [m.genres.map(g => g.name)] *)
Definition genre_names (m : media) : result (list string) :=
  match media_genres m with
  | Some l => Ok (map genre_name l)
  | None => Throw (TypeError "cannot read properties of undefined (reading 'map')")
  end.

(** [filterGenres.some(g => mangaGenres.includes(g))] *)
Definition some_included (wanted have : list string) : bool :=
  existsb (fun g => existsb (String.eqb g) have) wanted.

(** Does entry [m] carry one of the genres listed in the filter field
    [v]?  The entry's genre names are lower-cased first, then the
    filter's. *)
Definition genre_match (v : jsval) (m : media) : result bool :=
  rbind (genre_names m) (fun names =>
  rbind (lower_all v) (fun listed =>
  Ok (some_included listed (map toLowerCase names)))).

(** The two catalogues with a crowd-sourced tier.  [getMangaRecommendations]
    and [getAnimeRecommendations] are the same text up to the words
    below. *)
Inductive medium : Type := Manga | Anime.

Definition segment (md : medium) : string :=
  match md with Manga => "manga" | Anime => "anime" end.

Definition default_type (md : medium) : string :=
  match md with Manga => "Manga" | Anime => "TV" end.

Definition api : string := "https://api.jikan.moe/v4/".

Definition search_url (md : medium) (q : jsval) (limit : string) : string :=
  api ++ segment md ++ "?q=" ++ encodeURIComponent (ToString q)
      ++ "&limit=" ++ limit.

Definition suggestions_url (md : medium) (id : Z) : string :=
  api ++ segment md ++ "/" ++ decimal id ++ "/recommendations".

Definition item_url (md : medium) (id : Z) : string :=
  api ++ segment md ++ "/" ++ decimal id.

Definition genre_url (md : medium) (g : Z) : string :=
  api ++ segment md ++ "?genres=" ++ decimal g
      ++ "&order_by=score&sort=desc&limit=5".

Definition top_url (md : medium) (limit : string) : string :=
  api ++ "top/" ++ segment md ++ "?limit=" ++ limit.

Definition manhwa_url : string :=
  api ++ "manga?q=manhwa&order_by=score&sort=desc&limit=10".

Definition not_found (text : string) : response :=
  mkResponse 404 (ErrorDoc text None).

(** The body of the [async (rec) => ..] callback once the details [m] of
    the suggested entry have arrived: [None] is [return null]. *)
Definition crowd_entry (md : medium) (titles : list jsval)
    (genres exclude : jsval) (r : suggestion) (m : media)
  : result (option recommendation) :=
  rbind (if filter_given genres then genre_match genres m else Ok true)
    (fun wanted =>
  if negb wanted then Ok None else
  rbind (if filter_given exclude then genre_match exclude m else Ok false)
    (fun excluded =>
  if excluded then Ok None else
  rbind (match creators m with
         | Some names => Ok (String.concat ", " names)
         | None => Throw (TypeError "cannot read properties of undefined (reading 'map')")
         end) (fun by_whom =>
  rbind (genre_names m) (fun names =>
  Ok (Some {| rec_title := title m;
              creator := by_whom;
              rec_type := or_default (media_type m) (default_type md);
              rec_genres := names;
              description := or_default (synopsis m) "No description available";
              similarTo := index titles 0;
              whyRecommended :=
                "Recommended by " ++ decimal (votes r)
                ++ " MyAnimeList users who also enjoyed "
                ++ ToString (index titles 0);
              image := image_url m;
              rec_url := url m;
              rec_score := score m;
              rec_count := count m |}))))).

(** The whole callback: the details are requested through the queue; a
    failed request and anything thrown while building the record are
    caught and give [null]. *)
Definition crowd_item (md : medium) (titles : list jsval)
    (genres exclude : jsval) (r : suggestion) : M (option recommendation) :=
  try_catch
    (bind (enqueue_item up (item_url md (entry_id r))) (fun m =>
     lift (crowd_entry md titles genres exclude r m)))
    (fun _ => ret None).

(** [.filter(r => r !== null)] *)
Definition non_null {A : Type} (l : list (option A)) : list A :=
  flat_map (fun x => match x with Some a => [a] | None => [] end) l.

(** The record built by the [.map(manga => ({ .. }))] of the fallback
    tiers and of the manhwa assembler. *)
Definition listing_entry (type_of : media -> string) (similar : jsval)
    (why : string) (m : media) : result recommendation :=
  rbind (genre_names m) (fun names =>
  Ok {| rec_title := title m;
        creator := match creators m with
                   | Some l => or_default (Some (String.concat ", " l)) "Unknown"
                   | None => "Unknown"
                   end;
        rec_type := type_of m;
        rec_genres := names;
        description := or_default (synopsis m) "No description available";
        similarTo := similar;
        whyRecommended := why;
        image := image_url m;
        rec_url := url m;
        rec_score := score m;
        rec_count := count m |}).

(** [.filter(m => m.mal_id !== id)] *)
Definition other_than (id : Z) (l : list media) : list media :=
  filter (fun m => negb (mal_id m =? id)%Z) l.

Local Open Scope handler_scope.

(** First tier: the entries other users recommend for the base entry
    [id]; at most eight are looked up, each through the queue. *)
Definition crowd_tier (md : medium) (titles : list jsval)
    (genres exclude : jsval) (id : Z) : M (list recommendation) :=
  suggested <- enqueue_suggestions up (suggestions_url md id) ;;
  if (0 <? List.length suggested)%nat then
    found <- mapM (crowd_item md titles genres exclude) (firstn 8 suggested) ;;
    ret (non_null found)
  else ret [].

(** Second tier: when fewer than five entries were collected, the best
    entries of the first genre of the base entry are appended. *)
Definition genre_tier (md : medium) (titles : list jsval) (base : media)
    (recommendations : list recommendation) : M (list recommendation) :=
  if (List.length recommendations <? 5)%nat then
    match match media_genres base with Some l => l | None => [] end with
    | g :: _ =>
        listed <- enqueue_list up (genre_url md (genre_id g)) ;;
        genreRecs <- lift (rmap
          (listing_entry
             (fun m => or_default (media_type m) (default_type md))
             (index titles 0)
             ("Shares the " ++ genre_name g ++ " genre with "
                ++ ToString (index titles 0)))
          (other_than (mal_id base) listed)) ;;
        ret (recommendations ++ genreRecs)%list
    | [] => ret recommendations
    end
  else ret recommendations.

(** Third tier: when there are still fewer than five, the top-ranked
    entries are appended. *)
Definition top_tier (md : medium) (titles : list jsval) (base : media)
    (recommendations : list recommendation) : M (list recommendation) :=
  if (List.length recommendations <? 5)%nat then
    listed <- enqueue_list up (top_url md "5") ;;
    topRecs <- lift (rmap
      (listing_entry
         (fun m => or_default (media_type m) (default_type md))
         (index titles 0)
         ("This is a highly rated " ++ segment md ++ " on MyAnimeList"))
      (other_than (mal_id base) listed)) ;;
    ret (recommendations ++ topRecs)%list
  else ret recommendations.

(** The assembler from the point where the base entry is known. *)
Definition recommend_from (md : medium) (titles : list jsval)
    (genres exclude : jsval) (base : media) : M response :=
  crowd <- crowd_tier md titles genres exclude (mal_id base) ;;
  with_genre <- genre_tier md titles base crowd ;;
  with_top <- top_tier md titles base with_genre ;;
  ret (mkResponse 200
         (RecommendationsDoc (firstn 5 with_top) (title base) (segment md))).

(** [getMangaRecommendations] and [getAnimeRecommendations]: search the
    first title, then the second one when the first has no match. *)
Definition getRecommendations (md : medium) (titles : list jsval)
    (genres exclude : jsval) : M response :=
  searchResponse <- enqueue_list up (search_url md (index titles 0) "1") ;;
  match searchResponse with
  | [] =>
      if (1 <? List.length titles)%nat then
        secondSearchResponse <-
          enqueue_list up (search_url md (index titles 1) "1") ;;
        match secondSearchResponse with
        | [] =>
            ret (not_found ("Could not find " ++ segment md ++ " " ++ dquote
                   ++ ToString (index titles 0) ++ dquote ++ " or " ++ dquote
                   ++ ToString (index titles 1) ++ dquote))
        | base :: _ => recommend_from md titles genres exclude base
        end
      else
        ret (not_found ("Could not find " ++ segment md ++ " " ++ dquote
               ++ ToString (index titles 0) ++ dquote))
  | base :: _ => recommend_from md titles genres exclude base
  end.

Definition getMangaRecommendations := getRecommendations Manga.
Definition getAnimeRecommendations := getRecommendations Anime.

(** The test of [find] in the manhwa assembler. *)
Definition looks_korean (m : media) : bool :=
  includes (toLowerCase (title m)) "manhwa"
  || match background m with
     | Some b => negb (String.eqb b "") && includes (toLowerCase b) "korean"
     | None => false
     end
  || match demographics m with
     | Some d => existsb (String.eqb "Manhwa") d
     | None => false
     end.

(** The manhwa assembler from the point where the base entry [manhwa]
    and [baseTitle] are known. *)
Definition manhwa_from (genres exclude : jsval) (manhwa : media)
    (baseTitle : jsval) : M response :=
  manhwaResponse <- enqueue_list up manhwa_url ;;
  recommendations <-
    (if (0 <? List.length manhwaResponse)%nat then
       let manhwaList := other_than (mal_id manhwa) manhwaResponse in
       filtered <- lift
         (if filter_given genres then
            rbind (lower_all genres) (fun filterGenres =>
            rfilter (fun m =>
                       rbind (genre_names m) (fun names =>
                       Ok (some_included filterGenres (map toLowerCase names))))
                    manhwaList)
          else Ok manhwaList) ;;
       filteredManhwa <- lift
         (if filter_given exclude then
            rbind (lower_all exclude) (fun excludeGenres =>
            rfilter (fun m =>
                       rbind (genre_names m) (fun names =>
                       Ok (negb (some_included excludeGenres
                                   (map toLowerCase names)))))
                    filtered)
          else Ok filtered) ;;
       lift (rmap (listing_entry (fun _ => "Manhwa") baseTitle
                     "Popular Korean manhwa with similar appeal")
                  (firstn 5 filteredManhwa))
     else ret []) ;;
  with_top <-
    (if (List.length recommendations <? 5)%nat then
       topMangaResponse <- enqueue_list up (top_url Manga "10") ;;
       topRecs <- lift (rmap
         (listing_entry (fun m => or_default (media_type m) "Manga") baseTitle
            "Highly rated comic you might enjoy")
         (firstn (5 - List.length recommendations)
                 (other_than (mal_id manhwa) topMangaResponse))) ;;
       ret (recommendations ++ topRecs)%list
     else ret recommendations) ;;
  ret (mkResponse 200
         (RecommendationsDoc (firstn 5 with_top) (title manhwa) "manhwa")).

Definition getManhwaRecommendations (titles : list jsval)
    (genres exclude : jsval) : M response :=
  searchResponse <- enqueue_list up (search_url Manga (index titles 0) "5") ;;
  match searchResponse with
  | first :: _ =>
      manhwa_from genres exclude
        (match find looks_korean searchResponse with
         | Some m => m
         | None => first
         end)
        (index titles 0)
  | [] =>
      if (1 <? List.length titles)%nat then
        secondSearchResponse <-
          enqueue_list up (search_url Manga (index titles 1) "5") ;;
        match secondSearchResponse with
        | m :: _ => manhwa_from genres exclude m (index titles 1)
        | [] => ret (not_found "Could not find manhwa with these titles")
        end
      else
        ret (not_found ("Could not find manhwa " ++ dquote
               ++ ToString (index titles 0) ++ dquote))
  end.

(** [const { titles, genres, exclude, mediaType = 'manga' } = req.body] *)
Definition property (name : string) (v : jsval) : result jsval :=
  match v with
  | JUndefined | JNull =>
      Throw (TypeError "cannot destructure a value that is undefined or null")
  | JObj fields => Ok (lookup name fields)
  | _ => Ok JUndefined
  end.

(** The branch taken by [if (mediaType === 'anime') .. else if (mediaType
    === 'manhwa') .. else ..]. *)
Inductive assembler : Type := ForAnime | ForManhwa | ForManga.

Definition selected (mediaType : jsval) : assembler :=
  match mediaType with
  | JStr s =>
      if String.eqb s "anime" then ForAnime
      else if String.eqb s "manhwa" then ForManhwa
      else ForManga
  | _ => ForManga
  end.

Definition assemble (a : assembler) (titles : list jsval)
    (genres exclude : jsval) : M response :=
  match a with
  | ForAnime => getAnimeRecommendations titles genres exclude
  | ForManhwa => getManhwaRecommendations titles genres exclude
  | ForManga => getMangaRecommendations titles genres exclude
  end.

(** [!titles || titles.length === 0] *)
Definition no_titles (titles : jsval) : bool :=
  negb (truthy titles) || is_zero (js_length titles).

(** The handler of [app.post('/api/recommend', ..)], inside its [try].
    The template of the log line,
    [`Getting ${mediaType} recommendations based on: ${titles.join(', ')}`],
    is evaluated from left to right before anything is submitted:
    [mediaType] is converted to a string, then [titles.join(', ')] is
    called, which throws unless [titles] is an array and converts every
    title. *)
Definition recommend_try (req_body : jsval) : M response :=
  titles <- lift (property "titles" req_body) ;;
  genres <- lift (property "genres" req_body) ;;
  exclude <- lift (property "exclude" req_body) ;;
  mediaType <- lift (property "mediaType" req_body) ;;
  let mediaType := defaulted (JStr "manga") mediaType in
  if no_titles titles then
    ret (mkResponse 400 (ErrorDoc "Please provide at least one title" None))
  else
    kind <- lift (to_string mediaType) ;;
    match titles with
    | JArr list_of_titles =>
        based_on <- lift (join_strings ", " list_of_titles) ;;
        assemble (selected mediaType) list_of_titles genres exclude
    | _ => throw (TypeError "titles.join is not a function")
    end.

(** The whole handler: anything thrown becomes the 500 response. *)
Definition recommend (req_body : jsval) : M response :=
  try_catch (recommend_try req_body)
    (fun error =>
       ret (mkResponse 500
              (ErrorDoc "Failed to get recommendations"
                        (Some (message error))))).

(** A filter field that counts as given but is not an array. *)
Definition unusable_filter (v : jsval) : Prop :=
  filter_given v = true /\ forall l, v <> JArr l.

(** One HTTP exchange: the handler runs with nothing submitted yet. *)
Definition post_recommend (req_body : jsval) : result response * list string :=
  recommend req_body [].

(** The catalogue and page size of the title search of each assembler:
    the manhwa assembler searches the manga catalogue, five hits a page. *)
Definition search_plan (a : assembler) : medium * string :=
  match a with
  | ForAnime => (Anime, "1")
  | ForManhwa => (Manga, "5")
  | ForManga => (Manga, "1")
  end.

(** No candidate title has a match upstream: the search for the first
    title, submitted first, answers with no entry, and so does the search
    for the second title when there is one.  [sent] is the number of
    requests submitted before. *)
Definition no_match (a : assembler) (titles : list jsval) (sent : nat) : Prop :=
  get_list up sent
    (search_url (fst (search_plan a)) (index titles 0) (snd (search_plan a)))
  = Ok [] /\
  ((1 < List.length titles)%nat ->
   get_list up (S sent)
     (search_url (fst (search_plan a)) (index titles 1) (snd (search_plan a)))
   = Ok []).

(** ** The body parser in front of the handler

    [app.use(express.json())] runs before the handler.  A request with a
    JSON body has its text parsed; [body_parser] gives the value the
    parser leaves in [req.body], or the status of the error it raises
    when it refuses the text (400 for a text that is not well formed or
    is neither an object nor an array).  No error handler is installed,
    so such an error is answered by Express itself, with that status and
    an HTML page.  A request the parser passes by (no body, another
    content type) reaches the handler with [req.body] as Express leaves
    it. *)
Inductive posted : Type :=
| JsonText (text : string)
| Unread (req_body : jsval).

Inductive answer : Type :=
| Document (r : response)      (* [res.status(..).json(..)] of the handler *)
| ErrorPage (code : nat).      (* the HTML page of Express's error handler *)

Variable body_parser : string -> jsval + nat.

(** The answer of the handler; nothing escapes its [catch]. *)
Definition handled (req_body : jsval) : answer * list string :=
  match post_recommend req_body with
  | (Ok r, log) => (Document r, log)
  | (Throw _, log) => (ErrorPage 500, log)
  end.

(** One POST to [/api/recommend]. *)
Definition app_post (p : posted) : answer * list string :=
  match p with
  | JsonText text =>
      match body_parser text with
      | inl req_body => handled req_body
      | inr code => (ErrorPage code, [])
      end
  | Unread req_body => handled req_body
  end.

End Handlers.

(** ** A small catalogue

    Used to exercise the statements below.  The base entry (id 20) has
    the genre Action.  Two entries are suggested for it: one with the
    genre Action only (id 11) and one with the genre Romance (id 30).  The
    genre listing and the top listing answer with Action entries. *)

Definition genre_action : genre := mkGenre 1 "Action".
Definition genre_romance : genre := mkGenre 22 "Romance".

Definition entry (id : Z) (name : string) (gs : list genre) : media :=
  {| mal_id := id; title := name; creators := Some ["Studio"];
     media_type := None; media_genres := Some gs; synopsis := None;
     image_url := JNull; url := JNull; score := JNull; count := JNull;
     background := None; demographics := None |}.

Definition demo_catalogue (md : medium) : catalogue :=
  {| get_list := fun _ u =>
       if String.eqb u (search_url md (JStr "Naruto") "1") then
         Ok [entry 20 "Naruto" [genre_action]]
       else if String.eqb u (genre_url md 1) then
         Ok [entry 20 "Naruto" [genre_action]; entry 11 "Bleach" [genre_action];
             entry 21 "One Piece" [genre_action]]
       else if String.eqb u (top_url md "5") then
         Ok [entry 2 "Berserk" [genre_action]]
       else Ok [];
     get_suggestions := fun _ u =>
       if String.eqb u (suggestions_url md 20) then
         Ok [mkSuggestion 11 "Bleach" 40; mkSuggestion 30 "Kimi ni Todoke" 7]
       else Ok [];
     get_item := fun _ u =>
       if String.eqb u (item_url md 11) then Ok (entry 11 "Bleach" [genre_action])
       else if String.eqb u (item_url md 30) then
         Ok (entry 30 "Kimi ni Todoke" [genre_romance])
       else Throw (RequestError "Request failed with status code 404") |}.

(** A request for titles like "Naruto", wanting romance and excluding
    action. *)
Definition demo_request (md : medium) : jsval :=
  JObj [("titles", JArr [JStr "Naruto"]);
        ("genres", JArr [JStr "Romance"]);
        ("exclude", JArr [JStr "action"]);
        ("mediaType", JStr (segment md))].

Definition demo_recommendation (md : medium) (name why : string)
    (gs : list string) : recommendation :=
  {| rec_title := name; creator := "Studio"; rec_type := default_type md;
     rec_genres := gs; description := "No description available";
     similarTo := JStr "Naruto"; whyRecommended := why;
     image := JNull; rec_url := JNull; rec_score := JNull;
     rec_count := JNull |}.

(** What the server answers to [demo_request]. *)
Definition demo_recommendations (md : medium) : list recommendation :=
  [demo_recommendation md "Kimi ni Todoke"
     "Recommended by 7 MyAnimeList users who also enjoyed Naruto"
     ["Romance"];
   demo_recommendation md "Bleach"
     "Shares the Action genre with Naruto" ["Action"];
   demo_recommendation md "One Piece"
     "Shares the Action genre with Naruto" ["Action"];
   demo_recommendation md "Berserk"
     ("This is a highly rated " ++ segment md ++ " on MyAnimeList")
     ["Action"]].

Definition demo_response (md : medium) : response :=
  mkResponse 200
    (RecommendationsDoc (demo_recommendations md) "Naruto" (segment md)).

(** A catalogue that is down: every request fails. *)
Definition unreachable_catalogue : catalogue :=
  {| get_list := fun _ _ => Throw (RequestError "connect ECONNREFUSED");
     get_suggestions := fun _ _ => Throw (RequestError "connect ECONNREFUSED");
     get_item := fun _ _ => Throw (RequestError "connect ECONNREFUSED") |}.

(** The numeric reading of strings is irrelevant to these requests. *)
Definition never_positive (s : string) : bool := false.

(** A catalogue that answers every request: one entry per listing, six
    suggestions, and the same details for each of them. *)
Definition generous_catalogue : catalogue :=
  {| get_list := fun _ _ => Ok [entry 20 "Naruto" [genre_action]];
     get_suggestions := fun _ _ =>
       Ok (map (fun id => mkSuggestion id "Bleach" 3)
               [11; 12; 13; 14; 15; 16]%Z);
     get_item := fun _ _ => Ok (entry 11 "Bleach" [genre_action]) |}.

(** A catalogue whose genre listing is down and which has no
    suggestions. *)
Definition genre_down_catalogue : catalogue :=
  {| get_list := fun _ u =>
       if String.eqb u (genre_url Manga 1) then
         Throw (RequestError "Request failed with status code 429")
       else Ok [entry 20 "Naruto" [genre_action]];
     get_suggestions := fun _ _ => Ok [];
     get_item := fun _ _ =>
       Throw (RequestError "Request failed with status code 404") |}.

(** A body parser for the examples below.  It knows one text, the empty
    object, and refuses every other text with status 400, which is what
    the parser of Express does with a text that is not well formed, such
    as a lone opening brace. *)
Definition demo_body_parser (text : string) : jsval + nat :=
  if String.eqb text "{}" then inl (JObj []) else inr 400.

(** A body whose [mediaType] cannot be converted to a string. *)
Definition unprintable_media_type : jsval :=
  JObj [("titles", JArr [JStr "Nana"]);
        ("mediaType", JObj [("toString", JNum 1)])].

(** [m] submits at most [n] requests to the queue, however it ends. *)
Definition submits_at_most {A : Type} (m : M A) (n : nat) : Prop :=
  forall log, (List.length (snd (m log)) <= List.length log + n)%nat.

End Server.

(** * The generative recommendation service and its route

    [getRecommendations] of the service builds a prompt, asks the text
    model, takes the JSON out of the answer and parses it;
    [router.post('/recommend')] validates the body and hands it over. *)

Module Generative.
Import Server.

Local Open Scope string_scope.

Definition newline : string := String (ascii_of_nat 10) EmptyString.

Fixpoint drop (n : nat) (s : string) : string :=
  match n, s with
  | S k, String _ r => drop k r
  | _, _ => s
  end.

(** What follows the first occurrence of [pat] in [s]. *)
Fixpoint after_first (pat s : string) : option string :=
  if String.prefix pat s then Some (drop (String.length pat) s)
  else match s with
       | EmptyString => None
       | String _ r => after_first pat r
       end.

(** What precedes the first occurrence of [pat] in [s]. *)
Fixpoint before_first (pat s : string) : option string :=
  if String.prefix pat s then Some EmptyString
  else match s with
       | EmptyString => None
       | String c r =>
           match before_first pat r with
           | Some p => Some (String c p)
           | None => None
           end
       end.

Definition closing_fence : string := newline ++ "```".
Definition json_fence : string := "```json" ++ newline.
Definition plain_fence : string := "```" ++ newline.

(** The capture of [text.match(/<opening>([\s\S]*?)\n```/)]: the match
    starts at the first opening fence (a later start cannot match when the
    first cannot) and the lazy group ends at the first closing fence
    after it. *)
Definition fenced (opening text : string) : option string :=
  match after_first opening text with
  | Some rest => before_first closing_fence rest
  | None => None
  end.

(** [jsonMatch ? jsonMatch[1] : text], where [jsonMatch] is the match of
    the [```json] pattern or else of the bare [```] pattern. *)
Definition json_text (text : string) : string :=
  match fenced json_fence text with
  | Some inner => inner
  | None =>
      match fenced plain_fence text with
      | Some inner => inner
      | None => text
      end
  end.

(** [Array.isArray(titles) ? titles.join(', ') : titles], interpolated:
    the array is joined, anything else is converted to a string. *)
Definition titles_text (titles : jsval) : result string :=
  match titles with
  | JArr l => join_strings ", " l
  | _ => to_string titles
  end.

(** [x ? `<label>${x}` : ''], interpolated. *)
Definition optional_line (label : string) (x : jsval) : result string :=
  if truthy x then rbind (to_string x) (fun s => Ok (label ++ s)) else Ok "".

(** The text of the template, line by line, around its four interpolated
    pieces. *)
Definition prompt_text (titles_piece preferences_piece genres_piece
    exclude_piece : string) : string :=
  String.concat newline
    ["";
     "      As a manga and manhwa expert, please recommend 5 manga or manhwa based on the following:";
     "      ";
     "      Titles I've enjoyed: " ++ titles_piece;
     "      " ++ preferences_piece;
     "      " ++ genres_piece;
     "      " ++ exclude_piece;
     "      ";
     "      Format your response as JSON with this structure:";
     "      {";
     "        " ++ dquote ++ "recommendations" ++ dquote ++ ": [";
     "          {";
     "            " ++ dquote ++ "title" ++ dquote ++ ": " ++ dquote ++ "Title" ++ dquote ++ ",";
     "            " ++ dquote ++ "creator" ++ dquote ++ ": " ++ dquote ++ "Author/Artist" ++ dquote ++ ",";
     "            " ++ dquote ++ "type" ++ dquote ++ ": " ++ dquote ++ "Manga or Manhwa" ++ dquote ++ ",";
     "            " ++ dquote ++ "genres" ++ dquote ++ ": [" ++ dquote
       ++ "Genre1" ++ dquote ++ ", " ++ dquote ++ "Genre2" ++ dquote ++ "],";
     "            " ++ dquote ++ "description" ++ dquote ++ ": " ++ dquote ++ "Brief description" ++ dquote ++ ",";
     "            " ++ dquote ++ "similarTo" ++ dquote ++ ": " ++ dquote ++ "Most similar to which title I mentioned" ++ dquote ++ ",";
     "            " ++ dquote ++ "whyRecommended" ++ dquote ++ ": " ++ dquote ++ "Why you're recommending this based on my preferences" ++ dquote;
     "          }";
     "        ]";
     "      }";
     "      ";
     "      Only return the JSON without any other text. Ensure all manga/manhwa recommendations are real, existing titles.";
     "    "].

(** The template literal.  Its pieces are evaluated and converted to
    strings from left to right; a piece that cannot be converted throws,
    and the evaluation ends there. *)
Definition prompt (titles preferences genres exclude : jsval)
  : result string :=
  rbind (titles_text titles) (fun titles_piece =>
  rbind (optional_line "What I like about them: " preferences)
    (fun preferences_piece =>
  rbind (optional_line "Preferred genres: " genres) (fun genres_piece =>
  rbind (optional_line "Please exclude: " exclude) (fun exclude_piece =>
  Ok (prompt_text titles_piece preferences_piece genres_piece
        exclude_piece))))).

(** What a call ends with: the value returned or the message of the
    error thrown. *)
Inductive outcome : Type :=
| Returned (v : jsval)
| Thrown (msg : string).

Section Service.

(** [model.generateContent(prompt)] followed by [response.text()]: the
    text of the answer, or the message of the failure. *)
Variable generate : string -> string + string.

(** [JSON.parse]; [None] stands for its [SyntaxError]. *)
Variable JSON_parse : string -> option jsval.

(** The service.  The outer [catch] logs and rethrows, also what the
    template of the prompt throws before the model is asked. *)
Definition getRecommendations (titles preferences genres exclude : jsval)
  : outcome :=
  match prompt titles preferences genres exclude with
  | Ok asked =>
      match generate asked with
      | inl text =>
          match JSON_parse (json_text text) with
          | Some jsonResponse => Returned jsonResponse
          | None => Thrown "Failed to generate proper recommendations"
          end
      | inr msg => Thrown msg
      end
  | Throw e => Thrown (message e)
  end.

(** What the route does with the exchange: [res.status(n).json(v)]
    ([res.json(v)] has status 200) or [next(error)]. *)
Inductive reply : Type :=
| Json (code : nat) (v : jsval)
| Next (msg : string).

(** [router.post('/recommend', ..)] *)
Definition recommend_route (req_body : jsval) : reply :=
  match property "titles" req_body, property "preferences" req_body,
        property "genres" req_body, property "exclude" req_body with
  | Ok titles, Ok preferences, Ok genres, Ok exclude =>
      if no_titles titles then
        Json 400 (JObj [("success", JBool false);
                        ("error", JStr "No manga/manhwa titles provided")])
      else
        match getRecommendations titles preferences genres exclude with
        | Returned recommendations => Json 200 recommendations
        | Thrown msg => Next msg
        end
  | Throw e, _, _, _ | _, Throw e, _, _ | _, _, Throw e, _
  | _, _, _, Throw e => Next (message e)
  end.

End Service.

End Generative.

(** * The page

    The submit handler of the form in [scripts.js], up to the request it
    sends to [/api/recommend]. *)

Module Page.
Import Server.

Local Open Scope string_scope.

(** [s.split(',')] *)
Fixpoint split_commas (s : string) : list string :=
  match s with
  | EmptyString => [EmptyString]
  | String c r =>
      if Ascii.eqb c "," then EmptyString :: split_commas r
      else match split_commas r with
           | piece :: pieces => String c piece :: pieces
           | [] => [String c EmptyString]
           end
  end.

Section Form.

(** [String.prototype.trim]: which characters count as white space is the
    language's and is left open. *)
Variable trim : string -> string.

(** The body of the request the handler sends for the four input
    values, or [None] when it alerts and returns because no title was
    entered.  [JSON.stringify] on the page and [express.json()] on the
    server carry strings and lists of strings over unchanged. *)
Definition submit (titlesInput preferencesInput genresInput excludeInput
                   : string) : option jsval :=
  let titles := trim titlesInput in
  if String.eqb titles "" then None
  else
    Some (JObj [("titles",
                 JArr (map (fun title => JStr (trim title))
                           (split_commas titles)));
                ("preferences", JStr (trim preferencesInput));
                ("genres", JStr (trim genresInput));
                ("exclude", JStr (trim excludeInput))]).

End Form.

End Page.

(** * Properties of the request queue *)

Module RequestQueueFacts.
Import RequestQueue.

Lemma extract_singleton {A : Type} (p : A -> bool) (x y : A) (r : list A) :
  extract p [x] = Some (y, r) -> y = x /\ r = [] /\ p x = true.
Proof.
  simpl. destruct (p x) eqn:Hp; intros H; inversion H; auto.
Qed.

Lemma prefix_of_seq (l r : list nat) (n : nat) :
  l ++ r = seq 0 n -> l = seq 0 (length l).
Proof.
  revert l r. induction n as [|n IH]; intros l r H.
  - destruct l; [reflexivity | discriminate].
  - rewrite seq_S in H. simpl in H.
    destruct r as [|x r] using rev_ind.
    + rewrite app_nil_r in H. subst l.
      rewrite length_app, length_seq. simpl.
      rewrite Nat.add_1_r, seq_S. reflexivity.
    + rewrite app_assoc in H. apply app_inj_tail in H.
      destruct H as [H _]. eapply IH; eauto.
Qed.

Section Facts.

Context {W V E : Type}.
Local Abbreviation state := (@state W V E).
Local Abbreviation action := (@action W V E).
Local Abbreviation event := (@event W V E).
Local Abbreviation job := (@job W).

Lemma submitted_jobs_app (a b : list event) :
  submitted_jobs (a ++ b) = submitted_jobs a ++ submitted_jobs b.
Proof. apply flat_map_app. Qed.

Lemma invoked_jobs_app (a b : list event) :
  invoked_jobs (a ++ b) = invoked_jobs a ++ invoked_jobs b.
Proof. apply flat_map_app. Qed.

Lemma delivered_jobs_app (a b : list event) :
  delivered_jobs (a ++ b) = delivered_jobs a ++ delivered_jobs b.
Proof. apply flat_map_app. Qed.

Lemma delivery_times_app (a b : list event) :
  delivery_times (a ++ b) = delivery_times a ++ delivery_times b.
Proof. apply flat_map_app. Qed.

Lemma in_invoked_jobs (tr : list event) (j : job) :
  In j (invoked_jobs tr) <-> exists t, In (Invoked j t) tr.
Proof.
  unfold invoked_jobs. rewrite in_flat_map. split.
  - intros [e [He Hk]]. destruct e; simpl in Hk; try contradiction.
    destruct Hk as [<-|[]]. eauto.
  - intros [t Ht]. exists (Invoked j t). simpl. auto.
Qed.

Lemma in_delivered_jobs (tr : list event) (j : job) :
  In j (delivered_jobs tr) <-> exists o t, In (Delivered j o t) tr.
Proof.
  unfold delivered_jobs. rewrite in_flat_map. split.
  - intros [e [He Hk]]. destruct e; simpl in Hk; try contradiction.
    destruct Hk as [<-|[]]. eauto.
  - intros [o [t Ht]]. exists (Delivered j o t). simpl. auto.
Qed.

Lemma in_delivery_times (tr : list event) (t : Z) :
  In t (delivery_times tr) <-> exists j o, In (Delivered j o t) tr.
Proof.
  unfold delivery_times. rewrite in_flat_map. split.
  - intros [e [He Hk]]. destruct e; simpl in Hk; try contradiction.
    destruct Hk as [<-|[]]. eauto.
  - intros [j [o Ht]]. exists (Delivered j o t). simpl. auto.
Qed.

Ltac fields :=
  cbn [queue isProcessing awaiting timers now promises trace] in *.

Lemma exec_slot_app (a b : list event) :
  exec_slot (a ++ b) = fold_left occupy b (exec_slot a).
Proof. apply fold_left_app. Qed.

Ltac projections :=
  rewrite ?submitted_jobs_app, ?invoked_jobs_app, ?delivered_jobs_app,
    ?delivery_times_app;
  cbn [submitted_jobs invoked_jobs delivered_jobs delivery_times flat_map
       submitted_of invoked_of delivered_of delivery_time_of];
  rewrite ?app_nil_r.

Lemma invariant_init : invariant (@init W V E).
Proof.
  constructor; simpl; auto; try discriminate; try contradiction;
    intros; contradiction.
Qed.

(** In a state satisfying the invariant at most one thing is pending:
    either one suspended activation or one timer. *)
Lemma busy_cases (s : state) :
  invariant s -> isProcessing s = true ->
  (exists j, awaiting s = [j] /\ timers s = []) \/
  (exists d, awaiting s = [] /\ timers s = [d]).
Proof.
  intros I Hb. pose proof (inv_busy _ I Hb) as H.
  destruct (awaiting s) as [|j [|j' a]], (timers s) as [|d [|d' ts]];
    simpl in H; try lia; eauto.
Qed.

Lemma settle_inv (s s' : state) (id : nat) (o : outcome) :
  invariant s -> step (Settle id o) s = Some s' ->
  exists j, handle j = id /\ awaiting s = [j] /\ timers s = [] /\
            isProcessing s = true /\ s' = processQueue_resume j o [] s.
Proof.
  intros I H. simpl in H.
  destruct (isProcessing s) eqn:Hb.
  - destruct (busy_cases _ I Hb) as [[j [Ha Ht]]|[d [Ha Ht]]]; rewrite Ha in H.
    + destruct (extract _ [j]) as [[j' r]|] eqn:Hx; [|discriminate].
      apply extract_singleton in Hx. destruct Hx as [-> [-> Hp]].
      apply Nat.eqb_eq in Hp. inversion H. exists j. auto.
    + discriminate.
  - destruct (inv_idle _ I Hb) as [_ [Ha _]]. rewrite Ha in H. discriminate.
Qed.

Lemma fire_inv (s s' : state) (d : Z) :
  invariant s -> step (Fire d) s = Some s' ->
  awaiting s = [] /\ timers s = [d] /\ isProcessing s = true /\
  (d <= now s)%Z /\ s' = processQueue (clear_timer [] s).
Proof.
  intros I H. simpl in H.
  destruct (isProcessing s) eqn:Hb.
  - destruct (busy_cases _ I Hb) as [[j [Ha Ht]]|[d' [Ha Ht]]]; rewrite Ht in H.
    + discriminate.
    + destruct (extract _ [d']) as [[d'' r]|] eqn:Hx; [|discriminate].
      apply extract_singleton in Hx. destruct Hx as [-> [-> Hp]].
      apply Z.eqb_eq in Hp. subst d'.
      destruct (d <=? now s)%Z eqn:Hd; [|discriminate].
      apply Z.leb_le in Hd. inversion H. auto.
  - destruct (inv_idle _ I Hb) as [_ [_ Ht]]. rewrite Ht in H. discriminate.
Qed.

(** Jobs are invoked in the order of their handles. *)
Lemma invoked_handles (s : state) :
  invariant s ->
  map handle (invoked_jobs (trace s))
  = seq 0 (length (invoked_jobs (trace s))).
Proof.
  intros I. pose proof (inv_ids _ I) as Hi.
  rewrite <- (inv_fifo _ I), map_app in Hi.
  apply prefix_of_seq in Hi. rewrite length_map in Hi. exact Hi.
Qed.

(** The job whose work function is running is the last one invoked, and
    it has the largest handle. *)
Lemma invoked_bound (s : state) (j j' : job) :
  invariant s -> awaiting s = [j] -> In j' (invoked_jobs (trace s)) ->
  handle j' <= handle j.
Proof.
  intros I Ha Hk. pose proof (inv_running _ I) as Hr.
  pose proof (invoked_handles _ I) as Hp.
  rewrite Ha in Hr. rewrite <- Hr in Hp, Hk.
  rewrite map_app, length_app in Hp. cbn [map length] in Hp.
  rewrite Nat.add_1_r, seq_S in Hp.
  apply app_inj_tail in Hp. destruct Hp as [Hd Hj]. simpl in Hj.
  rewrite in_app_iff in Hk. destruct Hk as [Hk|[<-|[]]]; [|lia].
  apply (in_map handle) in Hk. rewrite Hd in Hk. apply in_seq in Hk. lia.
Qed.

Lemma invariant_push (fn : W) (s : state) :
  invariant s -> isProcessing s = true -> invariant (push fn s).
Proof.
  intros I Hb. constructor; unfold push; fields.
  - congruence.
  - intros _. apply (inv_busy _ I Hb).
  - projections. rewrite map_app, seq_S, (inv_ids _ I). reflexivity.
  - projections. rewrite app_assoc, (inv_fifo _ I). reflexivity.
  - projections. apply (inv_running _ I).
  - rewrite exec_slot_app, (inv_slot _ I). reflexivity.
  - intros e He. apply in_app_iff in He. destruct He as [He|[<-|[]]].
    + apply (inv_clock _ I _ He).
    + simpl. lia.
  - intros t d Ht. revert Ht. projections. apply (inv_timer _ I).
  - congruence.
  - intros j o t j' t' H1 H2. apply in_app_iff in H1, H2.
    destruct H1 as [H1|[H1|[]]]; [|discriminate].
    destruct H2 as [H2|[H2|[]]]; [|discriminate].
    apply (inv_spacing _ I _ _ _ _ _ H1 H2).
Qed.

Lemma invariant_start (fn : W) (s : state) :
  invariant s -> isProcessing s = false ->
  invariant (processQueue (push fn s)).
Proof.
  intros I Hb. destruct (inv_idle _ I Hb) as [Hq [Ha Ht]].
  pose proof (inv_fifo _ I) as Hf. pose proof (inv_running _ I) as Hr.
  rewrite Hq in Hf. rewrite Ha in Hr. rewrite app_nil_r in Hf, Hr.
  unfold processQueue, push. fields. rewrite Hq. cbn [app].
  constructor; fields.
  - discriminate.
  - intros _. rewrite Ha, Ht. reflexivity.
  - projections. rewrite map_app, seq_S, (inv_ids _ I). reflexivity.
  - projections. rewrite Hf. reflexivity.
  - projections. rewrite Ha. cbn [app]. congruence.
  - rewrite !exec_slot_app, (inv_slot _ I), Ha. reflexivity.
  - intros e He. rewrite !in_app_iff in He.
    destruct He as [[He|[<-|[]]]|[<-|[]]]; simpl; try lia.
    apply (inv_clock _ I _ He).
  - rewrite Ht. intros t d _ [].
  - discriminate.
  - intros j o t j' t' H1 H2 Hlt. rewrite !in_app_iff in H1, H2.
    destruct H1 as [[H1|[H1|[]]]|[H1|[]]]; try discriminate.
    destruct H2 as [[H2|[H2|[]]]|[H2|[]]]; try discriminate.
    + apply (inv_spacing _ I _ _ _ _ _ H1 H2 Hlt).
    + inversion H2; subst. apply (inv_rest _ I Hb).
      apply in_delivery_times. eauto.
Qed.

Lemma invariant_resume (s : state) (j : job) (o : outcome) :
  invariant s -> awaiting s = [j] -> timers s = [] ->
  isProcessing s = true ->
  invariant (processQueue_resume j o [] s).
Proof.
  intros I Ha Ht Hb. pose proof (inv_running _ I) as Hr.
  rewrite Ha in Hr.
  constructor; unfold processQueue_resume; fields.
  - congruence.
  - intros _. rewrite Ht. reflexivity.
  - projections. apply (inv_ids _ I).
  - projections. apply (inv_fifo _ I).
  - projections. exact Hr.
  - rewrite exec_slot_app, (inv_slot _ I), Ha. simpl.
    rewrite Nat.eqb_refl. reflexivity.
  - intros e He. apply in_app_iff in He. destruct He as [He|[<-|[]]].
    + apply (inv_clock _ I _ He).
    + simpl. lia.
  - rewrite Ht. intros t d Hin [<-|[]].
    apply in_delivery_times in Hin. destruct Hin as [k [o' Hin]].
    apply in_app_iff in Hin. destruct Hin as [Hin|[Hin|[]]].
    + pose proof (inv_clock _ I _ Hin) as Hc. simpl in Hc.
      unfold RATE_LIMIT_DELAY. lia.
    + inversion Hin; subst. lia.
  - congruence.
  - intros k o' t k' t' H1 H2 Hlt. apply in_app_iff in H1, H2.
    destruct H2 as [H2|[H2|[]]]; [|discriminate].
    destruct H1 as [H1|[H1|[]]].
    + apply (inv_spacing _ I _ _ _ _ _ H1 H2 Hlt).
    + inversion H1; subst.
      assert (handle k' <= handle k); [|lia].
      apply (invoked_bound s); auto. apply in_invoked_jobs. eauto.
Qed.

Lemma invariant_fire (s : state) (d : Z) :
  invariant s -> awaiting s = [] -> timers s = [d] ->
  isProcessing s = true -> (d <= now s)%Z ->
  invariant (processQueue (clear_timer [] s)).
Proof.
  intros I Ha Ht Hb Hd. pose proof (inv_running _ I) as Hr.
  pose proof (inv_fifo _ I) as Hf.
  rewrite Ha in Hr. rewrite app_nil_r in Hr.
  assert (Hdue : forall t, In t (delivery_times (trace s)) ->
                           (t + RATE_LIMIT_DELAY <= now s)%Z).
  { intros t Hin. pose proof (inv_timer _ I t d Hin) as H.
    rewrite Ht in H. specialize (H (or_introl eq_refl)). lia. }
  unfold processQueue, clear_timer. fields.
  destruct (queue s) as [|j q] eqn:Hq; constructor; fields.
  - auto.
  - discriminate.
  - apply (inv_ids _ I).
  - exact Hf.
  - rewrite Ha, app_nil_r. exact Hr.
  - apply (inv_slot _ I).
  - apply (inv_clock _ I).
  - intros t d' _ [].
  - intros _. exact Hdue.
  - apply (inv_spacing _ I).
  - discriminate.
  - intros _. rewrite Ha. reflexivity.
  - projections. apply (inv_ids _ I).
  - projections. rewrite <- app_assoc. exact Hf.
  - projections. rewrite Ha. cbn [app]. congruence.
  - rewrite exec_slot_app, (inv_slot _ I), Ha. reflexivity.
  - intros e He. apply in_app_iff in He. destruct He as [He|[<-|[]]].
    + apply (inv_clock _ I _ He).
    + simpl. lia.
  - intros t d' _ [].
  - discriminate.
  - intros k o t k' t' H1 H2 Hlt. apply in_app_iff in H1, H2.
    destruct H1 as [H1|[H1|[]]]; [|discriminate].
    destruct H2 as [H2|[H2|[]]].
    + apply (inv_spacing _ I _ _ _ _ _ H1 H2 Hlt).
    + inversion H2; subst. apply Hdue. apply in_delivery_times. eauto.
Qed.

Lemma invariant_tick (s : state) (dt : Z) :
  invariant s -> (0 <= dt)%Z -> invariant (tick dt s).
Proof.
  intros I Hdt. constructor; unfold tick; fields.
  - apply (inv_idle _ I).
  - apply (inv_busy _ I).
  - apply (inv_ids _ I).
  - apply (inv_fifo _ I).
  - apply (inv_running _ I).
  - apply (inv_slot _ I).
  - intros e He. pose proof (inv_clock _ I _ He). lia.
  - apply (inv_timer _ I).
  - intros Hb t Ht. pose proof (inv_rest _ I Hb t Ht). lia.
  - apply (inv_spacing _ I).
Qed.

Lemma invariant_step (a : action) (s s' : state) :
  invariant s -> step a s = Some s' -> invariant s'.
Proof.
  intros I H. destruct a as [fn|id o|d|dt].
  - simpl in H. inversion H; subst; clear H.
    destruct (isProcessing s) eqn:Hb.
    + apply invariant_push; auto.
    + apply invariant_start; auto.
  - apply settle_inv in H; auto.
    destruct H as [j [_ [Ha [Ht [Hb ->]]]]].
    apply invariant_resume; auto.
  - apply fire_inv in H; auto. destruct H as [Ha [Ht [Hb [Hd ->]]]].
    apply invariant_fire with (d := d); auto.
  - simpl in H. destruct (0 <=? dt)%Z eqn:Hdt; [|discriminate].
    inversion H; subst. apply invariant_tick; auto. lia.
Qed.

Lemma invariant_run (acts : list action) (s s' : state) :
  invariant s -> run acts s = Some s' -> invariant s'.
Proof.
  revert s. induction acts as [|a acts IH]; intros s I H; simpl in H.
  - inversion H; subst; auto.
  - destruct (step a s) as [s1|] eqn:Hs; [|discriminate].
    eapply IH; [|exact H]. eapply invariant_step; eauto.
Qed.

Lemma reachable_invariant (s : state) : reachable s -> invariant s.
Proof.
  intros [acts H]. eapply invariant_run; [apply invariant_init | exact H].
Qed.

Lemma run_app (a b : list action) (s : state) :
  run (a ++ b) s = match run a s with Some s' => run b s' | None => None end.
Proof.
  revert s. induction a as [|x a IH]; intros s; simpl; auto.
  destruct (step x s); auto.
Qed.

Lemma reachable_run (acts : list action) (s s' : state) :
  reachable s -> run acts s = Some s' -> reachable s'.
Proof.
  intros [pre Hpre] H. exists (pre ++ acts). rewrite run_app, Hpre. exact H.
Qed.

(** C1.  Spacing: when the outcome of job [j] has been delivered (its
    [resolve] or [reject] called) at clock value [t] and the work function
    of the job executed next, the one with the following handle, is
    invoked at [t'], then at least [RATE_LIMIT_DELAY] (1000 ms) separate
    the two: [t + RATE_LIMIT_DELAY <= t']. *)
Theorem rate_limit_spacing (s : state) (j j' : job) (o : outcome) (t t' : Z) :
  reachable s ->
  In (Delivered j o t) (trace s) -> In (Invoked j' t') (trace s) ->
  handle j' = S (handle j) ->
  (t + RATE_LIMIT_DELAY <= t')%Z /\ RATE_LIMIT_DELAY = 1000%Z.
Proof.
  intros R Hd Hi Hn. split; [|reflexivity].
  apply (inv_spacing _ (reachable_invariant _ R) _ _ _ _ _ Hd Hi). lia.
Qed.

(** C2.  FIFO: in every reachable state the jobs whose work function has
    been invoked, followed by the jobs still in [queue], are exactly the
    jobs submitted, in the order of submission; so invocations happen in
    submission order and a submitted job leaves the queue only by being
    invoked (nothing is reordered, overtaken or cancelled).  The handles
    of the submitted jobs are 0, 1, 2, ... in that order. *)
Theorem fifo_order (s : state) :
  reachable s ->
  invoked_jobs (trace s) ++ queue s = submitted_jobs (trace s) /\
  map handle (submitted_jobs (trace s)) = seq 0 (promises s).
Proof.
  intros R. pose proof (reachable_invariant _ R) as I. split.
  - apply (inv_fifo _ I).
  - apply (inv_ids _ I).
Qed.

(** C3.  Mutual exclusion: in every reachable state at most one work
    function has been invoked without having produced its result; these
    running jobs are exactly the invoked jobs whose outcome has not been
    delivered, and replaying the log through the single execution slot
    never finds two overlapping executions. *)
Theorem at_most_one_executing (s : state) :
  reachable s ->
  length (awaiting s) <= 1 /\
  delivered_jobs (trace s) ++ awaiting s = invoked_jobs (trace s) /\
  exec_slot (trace s) = Some (awaiting s).
Proof.
  intros R. pose proof (reachable_invariant _ R) as I. repeat split.
  - destruct (isProcessing s) eqn:Hb.
    + pose proof (inv_busy _ I Hb). lia.
    + destruct (inv_idle _ I Hb) as [_ [-> _]]. simpl. lia.
  - apply (inv_running _ I).
  - apply (inv_slot _ I).
Qed.

Lemma flag_tracks_loop (s : state) :
  invariant s -> (isProcessing s = true <-> loop_active s).
Proof.
  intros I. unfold loop_active. split.
  - intros Hb. destruct (busy_cases _ I Hb) as [[j [-> _]]|[d [_ ->]]].
    + left. discriminate.
    + right. discriminate.
  - intros H. destruct (isProcessing s) eqn:Hb; auto.
    destruct (inv_idle _ I Hb) as [_ [Ha Ht]]. rewrite Ha, Ht in H.
    destruct H as [H|H]; contradiction.
Qed.

(** C6.  [enqueueRequest] appends the new job to the tail of [queue];
    the flag [isProcessing] it tests is set exactly when a drain loop is
    active; with an active loop nothing else happens, and without one
    [processQueue] is started: the queue was empty, so the new job is
    shifted off at once and its work function invoked at the current
    clock value.  A submission to an idle queue is therefore executed. *)
Theorem enqueue_appends_and_restarts (s : state) (fn : W) :
  reachable s ->
  queue (push fn s) = queue s ++ [mkJob fn (promises s)] /\
  (isProcessing s = true <-> loop_active s) /\
  (loop_active s -> snd (enqueueRequest fn s) = push fn s) /\
  (~ loop_active s ->
     snd (enqueueRequest fn s) = processQueue (push fn s) /\
     queue (snd (enqueueRequest fn s)) = [] /\
     isProcessing (snd (enqueueRequest fn s)) = true /\
     awaiting (snd (enqueueRequest fn s)) = [mkJob fn (promises s)] /\
     trace (snd (enqueueRequest fn s))
     = trace s ++ [Submitted (mkJob fn (promises s)) (now s);
                   Invoked (mkJob fn (promises s)) (now s)]).
Proof.
  intros R. pose proof (reachable_invariant _ R) as I.
  pose proof (flag_tracks_loop _ I) as Hflag.
  split; [reflexivity|]. split; [exact Hflag|]. split.
  - intros Ha. apply Hflag in Ha. unfold enqueueRequest. simpl.
    rewrite Ha. reflexivity.
  - intros Hn. destruct (isProcessing s) eqn:Hb.
    + exfalso. apply Hn, Hflag. reflexivity.
    + destruct (inv_idle _ I Hb) as [Hq [Ha Ht]].
      unfold enqueueRequest, processQueue, push. simpl.
      rewrite Hb, Hq, Ha. simpl. rewrite <- app_assoc. auto.
Qed.

(** One turn of the drain loop: the running job settles, the delay
    passes, the timer fires. *)
Lemma cycle_step (s : state) (j : job) (o : outcome) :
  awaiting s = [j] -> timers s = [] ->
  run [Settle (handle j) o; Elapse RATE_LIMIT_DELAY;
       Fire (now s + RATE_LIMIT_DELAY)] s
  = Some (processQueue
            (clear_timer [] (tick RATE_LIMIT_DELAY
                               (processQueue_resume j o [] s)))).
Proof.
  intros Ha Ht. cbn [run step]. rewrite Ha. cbn [extract].
  rewrite Nat.eqb_refl.
  change (0 <=? RATE_LIMIT_DELAY)%Z with true. cbv iota.
  cbn [tick processQueue_resume timers now]. rewrite Ht.
  cbn [app extract]. rewrite Z.eqb_refl, Z.leb_refl.
  reflexivity.
Qed.

Lemma cycles_run (oc : job -> outcome) (q : list job) :
  forall (s : state) (j : job),
    awaiting s = [j] -> timers s = [] -> queue s = q ->
    exists s',
      run (cycles oc (j :: q) (now s)) s = Some s' /\
      queue s' = [] /\ awaiting s' = [] /\ timers s' = [] /\
      isProcessing s' = false /\ promises s' = promises s /\
      submitted_jobs (trace s') = submitted_jobs (trace s) /\
      delivered_jobs (trace s') = delivered_jobs (trace s) ++ j :: q /\
      (forall j', In j' (j :: q) ->
                  exists t, In (Delivered j' (oc j') t) (trace s')) /\
      (forall e, In e (trace s) -> In e (trace s')).
Proof.
  induction q as [|j2 q IH]; intros s j Ha Ht Hq.
  - eexists. split; [apply cycle_step; assumption|].
    unfold processQueue, clear_timer, tick, processQueue_resume. fields.
    rewrite Hq. fields. repeat split; auto.
    + projections. reflexivity.
    + projections. reflexivity.
    + intros j' [<-|[]]. exists (now s). apply in_app_iff. right. left.
      reflexivity.
    + intros e He. apply in_app_iff. auto.
  - cbn [cycles].
    change (?a :: ?b :: ?c :: ?r) with ([a; b; c] ++ r).
    rewrite run_app, cycle_step by assumption.
    set (s2 := processQueue _).
    assert (Hs2 : s2 = {| queue := q; isProcessing := true; awaiting := [j2];
                          timers := []; now := now s + RATE_LIMIT_DELAY;
                          promises := promises s;
                          trace := (trace s ++ [Delivered j (oc j) (now s)])
                                   ++ [Invoked j2 (now s + RATE_LIMIT_DELAY)%Z] |}).
    { unfold s2, processQueue, clear_timer, tick, processQueue_resume.
      fields. rewrite Hq. reflexivity. }
    destruct (IH s2 j2) as [s' H]; try (rewrite Hs2; reflexivity).
    destruct H as [Hrun [H1 [H2 [H3 [H4 [H5 [H6 [H7 [H8 H9]]]]]]]]].
    exists s'. replace (now s + RATE_LIMIT_DELAY)%Z with (now s2)
      by (rewrite Hs2; reflexivity).
    split; [exact Hrun|]. rewrite Hs2 in H5, H6, H7, H9. fields.
    revert H6 H7. projections. intros H6 H7.
    repeat split; auto.
    + rewrite H7, <- app_assoc. reflexivity.
    + intros j' [<-|Hin].
      * exists (now s). apply H9. apply in_app_iff. left.
        apply in_app_iff. right. left. reflexivity.
      * apply H8. exact Hin.
    + intros e He. apply H9. apply in_app_iff. left. apply in_app_iff. auto.
Qed.

Lemma timer_due (s : state) (d : Z) :
  awaiting s = [] -> timers s = [d] ->
  run [Elapse (Z.max 0 (d - now s)); Fire d] s
  = Some (processQueue (clear_timer [] (tick (Z.max 0 (d - now s)) s))).
Proof.
  intros Ha Ht. cbn [run step].
  replace (0 <=? Z.max 0 (d - now s))%Z with true
    by (symmetry; apply Z.leb_le; lia).
  cbn [tick timers now]. rewrite Ht. cbn [extract].
  rewrite Z.eqb_refl.
  replace (d <=? now s + Z.max 0 (d - now s))%Z with true
    by (symmetry; apply Z.leb_le; lia).
  reflexivity.
Qed.

(** Every action only adds to the observation log. *)
Lemma step_extends (a : action) (s s' : state) :
  step a s = Some s' -> exists ext, trace s' = trace s ++ ext.
Proof.
  destruct a as [fn|id o|d|dt]; cbn [step]; intros H.
  - inversion H. unfold enqueueRequest, push. cbn [snd isProcessing].
    destruct (isProcessing s).
    + fields. eexists. reflexivity.
    + unfold processQueue. fields.
      destruct (queue s ++ _); fields.
      * eexists. reflexivity.
      * rewrite <- app_assoc. eexists. reflexivity.
  - destruct (extract _ (awaiting s)) as [[j r]|]; [|discriminate].
    inversion H. unfold processQueue_resume. fields. eexists. reflexivity.
  - destruct (extract _ (timers s)) as [[x ts]|]; [|discriminate].
    destruct (d <=? now s)%Z; [|discriminate]. inversion H.
    unfold processQueue, clear_timer. fields.
    destruct (queue s); fields.
    + exists []. rewrite app_nil_r. reflexivity.
    + eexists. reflexivity.
  - destruct (0 <=? dt)%Z; [|discriminate]. inversion H.
    unfold tick. fields. exists []. rewrite app_nil_r. reflexivity.
Qed.

Lemma run_extends (acts : list action) (s s' : state) :
  run acts s = Some s' -> exists ext, trace s' = trace s ++ ext.
Proof.
  revert s. induction acts as [|a acts IH]; intros s H; cbn [run] in H.
  - inversion H. exists []. rewrite app_nil_r. reflexivity.
  - destruct (step a s) as [s1|] eqn:Hs; [|discriminate].
    destruct (step_extends _ _ _ Hs) as [e1 H1].
    destruct (IH _ H) as [e2 H2].
    exists (e1 ++ e2). rewrite H2, H1, app_assoc. reflexivity.
Qed.

(** Jobs are told apart by their promises. *)
Lemma same_handle_same_job (l : list job) (a b : job) :
  NoDup (map handle l) -> In a l -> In b l -> handle a = handle b -> a = b.
Proof.
  induction l as [|x l IH]; cbn [map]; intros Hn Ha Hb Hh; [destruct Ha|].
  inversion Hn as [|? ? Hx Hl]; subst.
  destruct Ha as [->|Ha], Hb as [->|Hb]; auto.
  - exfalso. apply Hx. rewrite Hh. apply in_map. exact Hb.
  - exfalso. apply Hx. rewrite <- Hh. apply in_map. exact Ha.
Qed.

Lemma settlements_app (p : nat) (a b : list event) :
  settlements p (a ++ b) = settlements p a ++ settlements p b.
Proof. apply flat_map_app. Qed.

Lemma in_settlements (p : nat) (tr : list event) (x : job * outcome * Z) :
  In x (settlements p tr) <->
  exists j o t, x = (j, o, t) /\ In (Delivered j o t) tr /\ handle j = p.
Proof.
  unfold settlements. rewrite in_flat_map. split.
  - intros [e [He Hk]]. destruct e as [j t|j t|j o t]; simpl in Hk;
      try contradiction.
    destruct (Nat.eqb (handle j) p) eqn:Hp; [|destruct Hk].
    destruct Hk as [<-|[]]. apply Nat.eqb_eq in Hp.
    exists j, o, t. auto.
  - intros [j [o [t [-> [Hi Hp]]]]]. exists (Delivered j o t). split; auto.
    simpl. apply Nat.eqb_eq in Hp. rewrite Hp. left. reflexivity.
Qed.

Lemma settlements_none (p : nat) (tr : list event) :
  ~ In p (map handle (delivered_jobs tr)) -> settlements p tr = [].
Proof.
  intros H. destruct (settlements p tr) as [|x r] eqn:Hs; auto.
  exfalso. apply H.
  assert (Hx : In x (settlements p tr)) by (rewrite Hs; left; reflexivity).
  apply in_settlements in Hx. destruct Hx as [j [o [t [_ [Hi <-]]]]].
  apply in_map. apply in_delivered_jobs. eauto.
Qed.

(** A promise whose [resolve] or [reject] occurs in a log in which no
    promise is settled twice has exactly that settlement. *)
Lemma settlements_single (tr : list event) (j : job) (o : outcome) (t : Z) :
  NoDup (map handle (delivered_jobs tr)) ->
  In (Delivered j o t) tr ->
  settlements (handle j) tr = [(j, o, t)].
Proof.
  induction tr as [|e tr IH]; intros Hn Hi; [destruct Hi|].
  change (e :: tr) with ([e] ++ tr) in *.
  rewrite delivered_jobs_app, map_app in Hn. rewrite settlements_app.
  destruct Hi as [->|Hi].
  - cbn [delivered_jobs flat_map delivered_of map app] in Hn.
    inversion Hn as [|? ? Hx Hl]; subst.
    rewrite (settlements_none _ _ Hx).
    cbn [settlements flat_map settlement_of app].
    rewrite Nat.eqb_refl. reflexivity.
  - assert (Hl : NoDup (map handle (delivered_jobs tr)))
      by (apply NoDup_app_remove_l in Hn; exact Hn).
    rewrite (IH Hl Hi).
    destruct e as [j0 t0|j0 t0|j0 o0 t0];
      cbn [settlements flat_map settlement_of app]; auto.
    destruct (Nat.eqb (handle j0) (handle j)) eqn:Hp; auto.
    exfalso. apply Nat.eqb_eq in Hp.
    cbn [delivered_jobs flat_map delivered_of map app] in Hn.
    inversion Hn as [|? ? Hx _]; subst. apply Hx. rewrite Hp.
    apply in_map. apply in_delivered_jobs. eauto.
Qed.

Lemma settlements_at_most_one (p : nat) (tr : list event) :
  NoDup (map handle (delivered_jobs tr)) -> length (settlements p tr) <= 1.
Proof.
  intros Hn.
  destruct (in_dec Nat.eq_dec p (map handle (delivered_jobs tr))) as [Hi|Hi].
  - apply in_map_iff in Hi. destruct Hi as [j [<- Hj]].
    apply in_delivered_jobs in Hj. destruct Hj as [o [t Hj]].
    rewrite (settlements_single _ _ _ _ Hn Hj). auto.
  - rewrite (settlements_none _ _ Hi). auto.
Qed.

Lemma delivered_once (s : state) :
  invariant s -> NoDup (map handle (delivered_jobs (trace s))).
Proof.
  intros I. pose proof (seq_NoDup (promises s) 0) as Hn.
  rewrite <- (inv_ids _ I), <- (inv_fifo _ I), <- (inv_running _ I),
    !map_app, <- app_assoc in Hn.
  apply NoDup_app_remove_r in Hn. exact Hn.
Qed.

Lemma submitted_once (s : state) :
  invariant s -> NoDup (map handle (submitted_jobs (trace s))).
Proof. intros I. rewrite (inv_ids _ I). apply seq_NoDup. Qed.

(** What [enqueueRequest] leaves behind: the job it has queued carries
    the work function it was given and the promise it returns, a promise
    no earlier job has. *)
Lemma enqueue_submits (s : state) (fn : W) :
  invariant s ->
  submitted_jobs (trace (snd (enqueueRequest fn s)))
  = submitted_jobs (trace s) ++ [mkJob fn (fst (enqueueRequest fn s))] /\
  ~ In (fst (enqueueRequest fn s)) (map handle (submitted_jobs (trace s))).
Proof.
  intros I. split.
  - unfold enqueueRequest, push. cbn [fst snd isProcessing].
    destruct (isProcessing s); fields.
    + projections. reflexivity.
    + unfold processQueue. fields.
      destruct (queue s ++ _); fields; projections; reflexivity.
  - cbn [enqueueRequest fst]. rewrite (inv_ids _ I), in_seq. lia.
Qed.

(** The job of a promise handed out earlier is still on record in
    every later state. *)
Lemma enqueued_job_recorded (s s2 : state) (fn : W) (acts : list action) :
  invariant s ->
  run acts (snd (enqueueRequest fn s)) = Some s2 ->
  In (mkJob fn (fst (enqueueRequest fn s))) (submitted_jobs (trace s2)).
Proof.
  intros I H. destruct (run_extends _ _ _ H) as [ext ->].
  rewrite submitted_jobs_app, (proj1 (enqueue_submits s fn I)).
  apply in_app_iff. left. apply in_app_iff. right. left. reflexivity.
Qed.

(** From every reachable state the schedule [drain] runs to a state in
    which the jobs whose outcome was delivered are exactly the submitted
    jobs, in submission order. *)
Lemma drain_settles_all (s : state) (oc : job -> outcome) :
  reachable s ->
  NoDup (map handle (delivered_jobs (trace s))) /\
  exists s',
    run (drain oc s) s = Some s' /\
    promises s' = promises s /\
    delivered_jobs (trace s') = submitted_jobs (trace s) /\
    map handle (delivered_jobs (trace s')) = seq 0 (promises s) /\
    (forall j, In j (awaiting s ++ queue s) ->
               exists t, In (Delivered j (oc j) t) (trace s')).
Proof.
  intros R. pose proof (reachable_invariant _ R) as I.
  pose proof (inv_ids _ I) as Hids. pose proof (inv_fifo _ I) as Hf.
  pose proof (inv_running _ I) as Hr. split.
  - apply delivered_once. exact I.
  - unfold drain. destruct (isProcessing s) eqn:Hb.
    + destruct (busy_cases _ I Hb) as [[j [Ha Ht]]|[d [Ha Ht]]];
        rewrite Ha; try rewrite Ht.
      * destruct (cycles_run oc (queue s) s j Ha Ht eq_refl) as [s' H].
        destruct H as [Hrun [_ [_ [_ [_ [H5 [_ [H7 [H8 _]]]]]]]]].
        exists s'. rewrite Ha in Hr.
        assert (Hd : delivered_jobs (trace s') = submitted_jobs (trace s)).
        { rewrite H7, <- Hf, <- Hr, <- app_assoc. reflexivity. }
        repeat split; auto. rewrite Hd. exact Hids.
      * change (?a :: ?b :: ?r) with ([a; b] ++ r).
        rewrite run_app, timer_due by assumption.
        rewrite Ha, app_nil_r in Hr.
        unfold processQueue, clear_timer, tick. fields.
        destruct (queue s) as [|j q] eqn:Hq.
        -- eexists. cbn [cycles run]. split; [reflexivity|]. fields.
           rewrite app_nil_r in Hf.
           repeat split; try congruence. intros j [].
        -- set (s2 := mkState _ _ _ _ _ _ _).
           replace (Z.max d (now s)) with (now s2)
             by (unfold s2; fields; lia).
           destruct (cycles_run oc q s2 j) as [s' H];
             try (unfold s2; fields; rewrite ?Ha; reflexivity).
           destruct H as [Hrun [_ [_ [_ [_ [H5 [_ [H7 [H8 _]]]]]]]]].
           exists s'. unfold s2 in H5, H7. fields.
           revert H7. projections. intros H7.
           assert (Hd : delivered_jobs (trace s') = submitted_jobs (trace s)).
           { rewrite H7, <- Hf, <- Hr. reflexivity. }
           repeat split; auto. rewrite Hd. exact Hids.
    + destruct (inv_idle _ I Hb) as [Hq [Ha Ht]]. rewrite Ha, Ht.
      exists s. rewrite Ha, app_nil_r in Hr. rewrite Hq, app_nil_r in Hf.
      repeat split; try congruence.
      rewrite Hq. intros j [].
Qed.

(** A failing work function, seen from the queue: the error goes to
    the [reject] of the job that was running, and the loop carries on as
    after a success. *)
Lemma rejection_passes (s s1 : state) (id : nat) (e : E) :
  reachable s ->
  step (Settle id (Rejected e)) s = Some s1 ->
  (exists j, handle j = id /\ awaiting s = [j] /\
             trace s1 = trace s ++ [Delivered j (Rejected e) (now s)]) /\
  (forall v, exists s2,
      step (Settle id (Resolved v)) s = Some s2 /\ control s2 = control s1) /\
  (forall fn, exists s3,
      run [Call fn; Elapse RATE_LIMIT_DELAY;
           Fire (now s + RATE_LIMIT_DELAY)] s1 = Some s3 /\
      awaiting s3 = [hd (mkJob fn (promises s)) (queue s)] /\
      In (Invoked (hd (mkJob fn (promises s)) (queue s))
                  (now s + RATE_LIMIT_DELAY)) (trace s3)).
Proof.
  intros R H. pose proof (reachable_invariant _ R) as I.
  destruct (settle_inv _ _ _ _ I H) as [j [Hid [Ha [Ht [Hb Hs1]]]]].
  split; [|split].
  - exists j. subst s1. auto.
  - intros v. eexists. split.
    + cbn [step]. rewrite Ha. cbn [extract]. rewrite Hid, Nat.eqb_refl.
      reflexivity.
    + subst s1. reflexivity.
  - intros fn. subst s1. cbn [run step enqueueRequest snd].
    cbn [push processQueue_resume isProcessing]. rewrite Hb.
    change (0 <=? RATE_LIMIT_DELAY)%Z with true. cbv iota.
    cbn [tick push processQueue_resume timers now]. rewrite Ht.
    cbn [app extract].
    rewrite Z.eqb_refl, Z.leb_refl.
    unfold processQueue, clear_timer, tick, push, processQueue_resume.
    fields.
    destruct (queue s) as [|j2 q]; cbn [app hd]; eexists;
      (split; [reflexivity|]); fields; (split; [reflexivity|]);
      apply in_app_iff; right; left; reflexivity.
Qed.


(** C5.  A failing work function.  Let [enqueueRequest fn] be called in
    a reachable state [s] and let the work function of the promise it
    returned fail with the error [e] in a later state [s2].  Then the
    job running in [s2] is the one queued by that call, with its work
    function [fn]; [e] itself is what [reject] of the returned promise
    is called with, and it is the only settlement of that promise; the
    queue continues from the same control state as after a success with
    any value [v]; and a job submitted afterwards is not held up: once
    the fixed delay has passed and the timer fires, the next job in
    submission order (the new one when nothing else is waiting) has its
    work function invoked, at the clock value of the failure plus
    [RATE_LIMIT_DELAY]. *)
Theorem failure_is_isolated (s s2 s3 : state) (fn : W) (acts : list action)
    (e : E) :
  reachable s ->
  run acts (snd (enqueueRequest fn s)) = Some s2 ->
  step (Settle (fst (enqueueRequest fn s)) (Rejected e)) s2 = Some s3 ->
  awaiting s2 = [mkJob fn (fst (enqueueRequest fn s))] /\
  trace s3
  = trace s2 ++ [Delivered (mkJob fn (fst (enqueueRequest fn s)))
                           (Rejected e) (now s2)] /\
  settlements (fst (enqueueRequest fn s)) (trace s3)
  = [(mkJob fn (fst (enqueueRequest fn s)), Rejected e, now s2)] /\
  (forall v, exists s4,
      step (Settle (fst (enqueueRequest fn s)) (Resolved v)) s2 = Some s4 /\
      control s4 = control s3) /\
  (forall fn', exists s5,
      run [Call fn'; Elapse RATE_LIMIT_DELAY;
           Fire (now s2 + RATE_LIMIT_DELAY)] s3 = Some s5 /\
      awaiting s5 = [hd (mkJob fn' (promises s2)) (queue s2)] /\
      In (Invoked (hd (mkJob fn' (promises s2)) (queue s2))
                  (now s2 + RATE_LIMIT_DELAY)) (trace s5)).
Proof.
  intros R H Hstep. pose proof (reachable_invariant _ R) as I.
  assert (R1 : reachable (snd (enqueueRequest fn s)))
    by (apply (reachable_run [Call fn] s); [exact R|reflexivity]).
  pose proof (reachable_run _ _ _ R1 H) as R2.
  pose proof (reachable_invariant _ R2) as I2.
  pose proof (enqueued_job_recorded _ _ _ _ I H) as Hrec.
  set (p := fst (enqueueRequest fn s)) in *.
  destruct (rejection_passes s2 s3 p e R2 Hstep)
    as [[j [Hid [Ha Ht]]] [Hv Hnext]].
  assert (Hj : j = mkJob fn p).
  { apply (same_handle_same_job (submitted_jobs (trace s2))); auto.
    - apply submitted_once. exact I2.
    - rewrite <- (inv_fifo _ I2), <- (inv_running _ I2), Ha.
      apply in_app_iff. left. apply in_app_iff. right. left. reflexivity. }
  subst j. split; [exact Ha|]. split; [exact Ht|]. split.
  - assert (R3 : reachable s3)
      by (apply (reachable_run [Settle p (Rejected e)] s2);
          [exact R2|cbn [run]; rewrite Hstep; reflexivity]).
    pose proof (delivered_once _ (reachable_invariant _ R3)) as Hn3.
    assert (Hin : In (Delivered (mkJob fn p) (Rejected e) (now s2)) (trace s3))
      by (rewrite Ht; apply in_app_iff; right; left; reflexivity).
    exact (settlements_single _ _ _ _ Hn3 Hin).
  - split; [exact Hv|exact Hnext].
Qed.

End Facts.

(** The concrete run reaches the states written out above. *)
Lemma demo_busy_reachable : reachable demo_busy.
Proof. exists demo_prefix. reflexivity. Qed.

Lemma demo_failed_step :
  step (Settle 0 (Rejected 500)) demo_busy = Some demo_failed.
Proof. reflexivity. Qed.

Lemma demo_next_reachable : reachable demo_next.
Proof. exists (demo_prefix ++ demo_suffix). reflexivity. Qed.

Lemma demo_idle_reachable : reachable demo_idle.
Proof. exists (demo_prefix ++ demo_suffix ++ demo_finish). reflexivity. Qed.

Lemma rate_limit_spacing_witness :
  (40 + RATE_LIMIT_DELAY <= 1040)%Z /\ RATE_LIMIT_DELAY = 1000%Z.
Proof.
  apply (rate_limit_spacing demo_next (mkJob 7 0) (mkJob 8 1)
           (Rejected 500) 40 1040).
  - exact demo_next_reachable.
  - simpl. tauto.
  - simpl. tauto.
  - reflexivity.
Defined.

Lemma fifo_order_witness :
  invoked_jobs (trace demo_next) ++ queue demo_next
  = submitted_jobs (trace demo_next) /\
  map handle (submitted_jobs (trace demo_next)) = seq 0 (promises demo_next).
Proof. apply (fifo_order demo_next). exact demo_next_reachable. Defined.

Lemma at_most_one_executing_witness :
  length (awaiting demo_busy) <= 1 /\
  delivered_jobs (trace demo_busy) ++ awaiting demo_busy
  = invoked_jobs (trace demo_busy) /\
  exec_slot (trace demo_busy) = Some (awaiting demo_busy).
Proof. apply (at_most_one_executing demo_busy). exact demo_busy_reachable. Defined.


Lemma failure_is_isolated_witness :
  awaiting demo_busy = [mkJob 7 (fst (enqueueRequest 7 (@init nat nat nat)))] /\
  trace demo_failed
  = trace demo_busy ++ [Delivered (mkJob 7 (fst (enqueueRequest 7 (@init nat nat nat))))
                                  (Rejected 500) (now demo_busy)] /\
  settlements (fst (enqueueRequest 7 (@init nat nat nat))) (trace demo_failed)
  = [(mkJob 7 (fst (enqueueRequest 7 (@init nat nat nat))), Rejected 500,
      now demo_busy)] /\
  (forall v : nat, exists s4,
      step (Settle (fst (enqueueRequest 7 (@init nat nat nat))) (Resolved v))
           demo_busy = Some s4 /\
      control s4 = control demo_failed) /\
  (forall fn', exists s5,
      run [Call fn'; Elapse RATE_LIMIT_DELAY;
           Fire (now demo_busy + RATE_LIMIT_DELAY)] demo_failed = Some s5 /\
      awaiting s5 = [hd (mkJob fn' (promises demo_busy)) (queue demo_busy)] /\
      In (Invoked (hd (mkJob fn' (promises demo_busy)) (queue demo_busy))
                  (now demo_busy + RATE_LIMIT_DELAY)) (trace s5)).
Proof.
  apply (failure_is_isolated init demo_busy demo_failed 7 [Call 8; Elapse 40]
           500).
  - exists []. reflexivity.
  - reflexivity.
  - reflexivity.
Defined.

Lemma enqueue_appends_and_restarts_witness :
  queue (push 9 demo_idle) = queue demo_idle ++ [mkJob 9 (promises demo_idle)] /\
  (isProcessing demo_idle = true <-> loop_active demo_idle) /\
  (loop_active demo_idle -> snd (enqueueRequest 9 demo_idle) = push 9 demo_idle) /\
  (~ loop_active demo_idle ->
     snd (enqueueRequest 9 demo_idle) = processQueue (push 9 demo_idle) /\
     queue (snd (enqueueRequest 9 demo_idle)) = [] /\
     isProcessing (snd (enqueueRequest 9 demo_idle)) = true /\
     awaiting (snd (enqueueRequest 9 demo_idle))
     = [mkJob 9 (promises demo_idle)] /\
     trace (snd (enqueueRequest 9 demo_idle))
     = trace demo_idle ++ [Submitted (mkJob 9 (promises demo_idle)) (now demo_idle);
                           Invoked (mkJob 9 (promises demo_idle)) (now demo_idle)]).
Proof.
  apply (enqueue_appends_and_restarts demo_idle 9). exact demo_idle_reachable.
Defined.

End RequestQueueFacts.

(** * Properties of the recommendation endpoint *)

Module ServerFacts.
Import Server.

Local Open Scope string_scope.

Section Facts.

Variable up : catalogue.
Variable numeric_string_positive : string -> bool.

Local Abbreviation post_recommend := (post_recommend up numeric_string_positive).
Local Abbreviation recommend_try := (recommend_try up numeric_string_positive).
Local Abbreviation app_post := (app_post up numeric_string_positive).
Local Abbreviation getRecommendations := (getRecommendations up numeric_string_positive).
Local Abbreviation getMangaRecommendations := (getMangaRecommendations up numeric_string_positive).
Local Abbreviation getAnimeRecommendations := (getAnimeRecommendations up numeric_string_positive).
Local Abbreviation getManhwaRecommendations := (getManhwaRecommendations up numeric_string_positive).
Local Abbreviation recommend_from := (recommend_from up numeric_string_positive).
Local Abbreviation manhwa_from := (manhwa_from up numeric_string_positive).
Local Abbreviation assemble := (assemble up numeric_string_positive).
Local Abbreviation no_match := (no_match up).

Lemma bind_ok {A B : Type} (m : M A) (f : A -> M B) (log log' : list string)
    (b : B) :
  bind m f log = (Ok b, log') ->
  exists a mid, m log = (Ok a, mid) /\ f a mid = (Ok b, log').
Proof.
  unfold bind. destruct (m log) as [[a|e] mid]; intros H.
  - eauto.
  - discriminate.
Qed.

Lemma ret_ok {A : Type} (a b : A) (log log' : list string) :
  ret a log = (Ok b, log') -> a = b /\ log = log'.
Proof. unfold ret. intros H. inversion H. auto. Qed.

Lemma recommend_from_capped (md : medium) (titles : list jsval)
    (genres exclude : jsval) (base : media) (log log' : list string)
    (r : response) (recs : list recommendation) (bt mt : string) :
  recommend_from md titles genres exclude base log = (Ok r, log') ->
  body r = RecommendationsDoc recs bt mt ->
  List.length recs <= 5.
Proof.
  unfold Server.recommend_from. intros H Hb.
  apply bind_ok in H. destruct H as [crowd [l1 [_ H]]].
  apply bind_ok in H. destruct H as [g [l2 [_ H]]].
  apply bind_ok in H. destruct H as [t [l3 [_ H]]].
  apply ret_ok in H. destruct H as [<- _]. cbn [body] in Hb.
  assert (Hr : recs = firstn 5 t) by congruence.
  rewrite Hr, length_firstn. apply Nat.le_min_l.
Qed.

Lemma manhwa_from_capped (genres exclude : jsval) (manhwa : media)
    (baseTitle : jsval) (log log' : list string)
    (r : response) (recs : list recommendation) (bt mt : string) :
  manhwa_from genres exclude manhwa baseTitle log = (Ok r, log') ->
  body r = RecommendationsDoc recs bt mt ->
  List.length recs <= 5.
Proof.
  unfold Server.manhwa_from. intros H Hb.
  apply bind_ok in H. destruct H as [resp [l1 [_ H]]].
  apply bind_ok in H. destruct H as [g [l2 [_ H]]].
  apply bind_ok in H. destruct H as [t [l3 [_ H]]].
  apply ret_ok in H. destruct H as [<- _]. cbn [body] in Hb.
  assert (Hr : recs = firstn 5 t) by congruence.
  rewrite Hr, length_firstn. apply Nat.le_min_l.
Qed.

Lemma not_found_body (text : string) (recs : list recommendation)
    (bt mt : string) :
  body (not_found text) <> RecommendationsDoc recs bt mt.
Proof. discriminate. Qed.

Lemma getRecommendations_capped (md : medium) (titles : list jsval)
    (genres exclude : jsval) (log log' : list string)
    (r : response) (recs : list recommendation) (bt mt : string) :
  getRecommendations md titles genres exclude log = (Ok r, log') ->
  body r = RecommendationsDoc recs bt mt ->
  List.length recs <= 5.
Proof.
  unfold Server.getRecommendations. intros H Hb.
  apply bind_ok in H. destruct H as [found [l1 [_ H]]].
  destruct found as [|base rest].
  - destruct (1 <? List.length titles)%nat.
    + apply bind_ok in H. destruct H as [second [l2 [_ H]]].
      destruct second as [|base rest].
      * apply ret_ok in H. destruct H as [<- _]. discriminate.
      * eapply recommend_from_capped; eauto.
    + apply ret_ok in H. destruct H as [<- _]. discriminate.
  - eapply recommend_from_capped; eauto.
Qed.

(** C8.  A successful answer of any of the three assemblers carries at
    most five recommendations, whatever the tiers collected. *)
Theorem recommendations_capped (titles : list jsval) (genres exclude : jsval)
    (log log' : list string) (r : response)
    (recs : list recommendation) (bt mt : string) :
  getMangaRecommendations titles genres exclude log = (Ok r, log') \/
  getManhwaRecommendations titles genres exclude log = (Ok r, log') \/
  getAnimeRecommendations titles genres exclude log = (Ok r, log') ->
  body r = RecommendationsDoc recs bt mt ->
  List.length recs <= 5.
Proof.
  intros [H|[H|H]] Hb.
  - eapply getRecommendations_capped; eauto.
  - unfold Server.getManhwaRecommendations in H.
    apply bind_ok in H. destruct H as [found [l1 [_ H]]].
    destruct found as [|first rest].
    + destruct (1 <? List.length titles)%nat.
      * apply bind_ok in H. destruct H as [second [l2 [_ H]]].
        destruct second as [|m rest].
        -- apply ret_ok in H. destruct H as [<- _]. discriminate.
        -- eapply manhwa_from_capped; eauto.
      * apply ret_ok in H. destruct H as [<- _]. discriminate.
    + eapply manhwa_from_capped; eauto.
  - eapply getRecommendations_capped; eauto.
Qed.

Lemma recommend_from_success (md : medium) (titles : list jsval)
    (genres exclude : jsval) (base : media) (log log' : list string)
    (r : response) :
  recommend_from md titles genres exclude base log = (Ok r, log') ->
  is_success r.
Proof.
  unfold Server.recommend_from. intros H.
  apply bind_ok in H. destruct H as [crowd [l1 [_ H]]].
  apply bind_ok in H. destruct H as [g [l2 [_ H]]].
  apply bind_ok in H. destruct H as [t [l3 [_ H]]].
  apply ret_ok in H. destruct H as [<- _]. split; simpl; eauto.
Qed.

Lemma manhwa_from_success (genres exclude : jsval) (manhwa : media)
    (baseTitle : jsval) (log log' : list string) (r : response) :
  manhwa_from genres exclude manhwa baseTitle log = (Ok r, log') ->
  is_success r.
Proof.
  unfold Server.manhwa_from. intros H.
  apply bind_ok in H. destruct H as [resp [l1 [_ H]]].
  apply bind_ok in H. destruct H as [g [l2 [_ H]]].
  apply bind_ok in H. destruct H as [t [l3 [_ H]]].
  apply ret_ok in H. destruct H as [<- _]. split; simpl; eauto.
Qed.

Lemma enqueue_list_eq (u : string) (log : list string) :
  enqueue_list up u log = (get_list up (List.length log) u, (log ++ [u])%list).
Proof. reflexivity. Qed.

Lemma enqueue_list_ok (u : string) (log log' : list string) (l : list media) :
  enqueue_list up u log = (Ok l, log') ->
  get_list up (List.length log) u = Ok l /\ log' = (log ++ [u])%list.
Proof. unfold enqueue_list. intros H. inversion H. auto. Qed.

Lemma length_snoc (log : list string) (u : string) :
  List.length (log ++ [u])%list = S (List.length log).
Proof. rewrite length_app. simpl. apply Nat.add_1_r. Qed.

(** An assembler answers with 200 and recommendations, or with 404 and
    an error document; the latter exactly in the absence of a match. *)
Lemma assemble_outcome (a : assembler) (titles : list jsval)
    (genres exclude : jsval) (log log' : list string) (r : response) :
  assemble a titles genres exclude log = (Ok r, log') ->
  (is_success r /\ ~ no_match a titles (List.length log)) \/
  (is_error 404 r /\ no_match a titles (List.length log)).
Proof.
  intros H.
  assert (Hnf : forall text, is_error 404 (not_found text)).
  { intros text. split; simpl; eauto. }
  unfold Server.no_match.
  destruct a; cbn [search_plan fst snd];
    unfold Server.assemble, Server.getAnimeRecommendations,
      Server.getMangaRecommendations, Server.getRecommendations,
      Server.getManhwaRecommendations in H;
    apply bind_ok in H; destruct H as [found [l1 [Hs H]]];
    apply enqueue_list_ok in Hs; destruct Hs as [Hs ->];
    (destruct found as [|base rest];
     [ destruct (1 <? List.length titles)%nat eqn:Hlen;
       [ apply bind_ok in H; destruct H as [second [l2 [Hs2 H]]];
         apply enqueue_list_ok in Hs2; destruct Hs2 as [Hs2 ->];
         rewrite length_snoc in Hs2;
         destruct second as [|m rest2];
         [ apply ret_ok in H; destruct H as [<- _]; right; split; auto
         | left; split;
           [ first [ eapply recommend_from_success; eassumption
                   | eapply manhwa_from_success; eassumption ]
           | intros [_ Hn]; apply Nat.ltb_lt in Hlen;
             specialize (Hn Hlen); congruence ] ]
       | apply ret_ok in H; destruct H as [<- _]; right; split; auto;
         split; auto; intros Hn; apply Nat.ltb_lt in Hn; congruence ]
     | left; split;
       [ first [ eapply recommend_from_success; eassumption
               | eapply manhwa_from_success; eassumption ]
       | intros [Hn _]; congruence ] ]).
Qed.

Lemma assemble_not_found (a : assembler) (titles : list jsval)
    (genres exclude : jsval) (log : list string) :
  no_match a titles (List.length log) ->
  exists text log',
    assemble a titles genres exclude log = (Ok (not_found text), log').
Proof.
  unfold Server.no_match. intros [H1 H2].
  destruct a; cbn [search_plan fst snd] in H1, H2;
    unfold Server.assemble, Server.getAnimeRecommendations,
      Server.getMangaRecommendations, Server.getRecommendations,
      Server.getManhwaRecommendations, bind;
    rewrite enqueue_list_eq, H1;
    (destruct (1 <? List.length titles)%nat eqn:Hlen;
     [ apply Nat.ltb_lt in Hlen; specialize (H2 Hlen);
       rewrite enqueue_list_eq, length_snoc, H2; unfold ret; eauto
     | unfold ret; eauto ]).
Qed.

(** The fields the handler destructures from the body. *)
Lemma property_cases (req_body : jsval) :
  (forall name, exists e, property name req_body = Throw e) \/
  (exists field, forall name, property name req_body = Ok (field name)).
Proof.
  destruct req_body; simpl; eauto.
  - right. exists (fun _ => JUndefined). auto.
  - right. exists (fun _ => JUndefined). auto.
  - right. exists (fun _ => JUndefined). auto.
  - right. exists (fun _ => JUndefined). auto.
  - right. exists (fun name => lookup name fields). auto.
Qed.

Lemma selected_defaulted (v : jsval) :
  selected (defaulted (JStr "manga") v) = selected v.
Proof. destruct v; reflexivity. Qed.

(** Induction on a value that reaches the elements of an array. *)
Lemma jsval_elements_ind (P : jsval -> Prop) :
  P JUndefined -> P JNull -> (forall b, P (JBool b)) ->
  (forall n, P (JNum n)) -> (forall s, P (JStr s)) ->
  (forall l, Forall P l -> P (JArr l)) ->
  (forall fields, P (JObj fields)) ->
  forall v, P v.
Proof.
  intros Hu Hn Hb Hz Hs Ha Ho.
  exact (fix rec (v : jsval) : P v :=
           match v with
           | JUndefined => Hu
           | JNull => Hn
           | JBool b => Hb b
           | JNum n => Hz n
           | JStr s => Hs s
           | JArr l =>
               Ha l ((fix all (l : list jsval) : Forall P l :=
                        match l with
                        | [] => Forall_nil P
                        | x :: r => Forall_cons x (rec x) (all r)
                        end) l)
           | JObj fields => Ho fields
           end).
Qed.

(** A conversion that succeeds yields the string [ToString] gives. *)
Lemma to_string_agrees (v : jsval) :
  forall s, to_string v = Ok s -> s = ToString v.
Proof.
  induction v as [| |b|n|s0|l IHl|fields] using jsval_elements_ind;
    cbn [to_string ToString]; intros s H.
  - congruence.
  - congruence.
  - destruct b; congruence.
  - congruence.
  - congruence.
  - match type of H with
    | rbind (?each l) _ = _ =>
        assert (Hp : forall ys, each l = Ok ys ->
                  ys = map (fun x => match x with
                                     | JUndefined | JNull => ""
                                     | _ => ToString x
                                     end) l)
    end.
    { clear H. induction IHl as [|x r Hx0 _ IH]; intros ys Hys.
      - cbn [map]. congruence.
      - destruct (match x with
                  | JUndefined | JNull => Ok ""
                  | _ => to_string x
                  end) as [y|e] eqn:Hx; [|discriminate].
        cbn [rbind] in Hys.
        match type of Hys with
        | rbind ?m _ = _ => destruct m as [zs|e] eqn:Hr; [|discriminate]
        end.
        cbn [rbind] in Hys. injection Hys as <-. cbn [map]. f_equal.
        + destruct x; try (apply Hx0; exact Hx); congruence.
        + apply IH. reflexivity. }
    match type of H with
    | rbind ?m _ = _ => destruct m as [ys|e]; [|discriminate]
    end.
    cbn [rbind] in H. rewrite <- (Hp ys eq_refl). congruence.
  - destruct (has_own "toString" fields); congruence.
Qed.

(** Every element of an array that can be joined can be converted, to
    the string [ToString] gives. *)
Lemma joined_elements_convert (sep : string) (l : list jsval) (s : string) :
  join_strings sep l = Ok s ->
  s = join sep l /\
  forall i, to_string (index l i) = Ok (ToString (index l i)).
Proof.
  unfold join_strings, join. intros H.
  destruct (rmap _ l) as [ys|e] eqn:Hr; [|discriminate].
  cbn [rbind] in H. injection H as <-.
  assert (Hp : ys = map (fun x => match x with
                                  | JUndefined | JNull => ""
                                  | _ => ToString x
                                  end) l /\
               forall i, to_string (index l i) = Ok (ToString (index l i))).
  { revert ys Hr. induction l as [|x r IH]; intros ys Hr.
    - cbn in Hr. injection Hr as <-. split; [reflexivity|].
      intros i. destruct i; reflexivity.
    - cbn [rmap] in Hr.
      destruct (match x with
                | JUndefined | JNull => Ok ""
                | _ => to_string x
                end) as [y|e] eqn:Hx; [|discriminate].
      cbn [rbind] in Hr.
      destruct (rmap _ r) as [zs|e] eqn:Hz; [|discriminate].
      cbn [rbind] in Hr. injection Hr as <-.
      destruct (IH zs eq_refl) as [-> Hi]. split.
      + cbn [map]. f_equal.
        destruct x; try (apply to_string_agrees; exact Hx); congruence.
      + intros i. destruct i as [|i]; [|apply Hi].
        unfold index. cbn [nth].
        destruct x; try reflexivity;
          rewrite Hx; f_equal; apply to_string_agrees; exact Hx. }
  destruct Hp as [-> Hi]. split; [reflexivity|exact Hi].
Qed.

(** Strings are joined as they are. *)
Lemma join_strings_of_strings (sep : string) (f : string -> string)
    (l : list string) :
  join_strings sep (map (fun t => JStr (f t)) l)
  = Ok (String.concat sep (map f l)).
Proof.
  unfold join_strings.
  assert (H : rmap (fun x => match x with
                             | JUndefined | JNull => Ok ""
                             | _ => to_string x
                             end) (map (fun t => JStr (f t)) l)
              = Ok (map f l)).
  { induction l as [|t l IH]; cbn [map rmap rbind to_string];
      [reflexivity | rewrite IH; reflexivity]. }
  rewrite H. reflexivity.
Qed.

Lemma lift_ok {A : Type} (x : result A) (a : A) (log log' : list string) :
  lift x log = (Ok a, log') -> x = Ok a /\ log' = log.
Proof. unfold lift. intros H. inversion H. auto. Qed.

Lemma recommend_try_fields (req_body : jsval) (field : string -> jsval) :
  (forall name, property name req_body = Ok (field name)) ->
  recommend_try req_body
  = if no_titles (field "titles") then
      ret (mkResponse 400 (ErrorDoc "Please provide at least one title" None))
    else
      bind (lift (to_string (defaulted (JStr "manga") (field "mediaType"))))
        (fun _ =>
           match field "titles" with
           | JArr list_of_titles =>
               bind (lift (join_strings ", " list_of_titles))
                 (fun _ =>
                    assemble (selected (field "mediaType")) list_of_titles
                      (field "genres") (field "exclude"))
           | _ => throw (TypeError "titles.join is not a function")
           end).
Proof.
  intros H. unfold Server.recommend_try. rewrite !H.
  destruct (field "mediaType"); reflexivity.
Qed.

(** The handler once the log line has been rendered. *)
Lemma recommend_try_logged (req_body : jsval) (field : string -> jsval)
    (titles : list jsval) (kind based_on : string) :
  (forall name, property name req_body = Ok (field name)) ->
  field "titles" = JArr titles -> titles <> [] ->
  to_string (defaulted (JStr "manga") (field "mediaType")) = Ok kind ->
  join_strings ", " titles = Ok based_on ->
  recommend_try req_body
  = assemble (selected (field "mediaType")) titles
      (field "genres") (field "exclude").
Proof.
  intros H Ht Hne Hk Hb. rewrite (recommend_try_fields _ _ H), Ht, Hk, Hb.
  destruct titles; [contradiction|]. reflexivity.
Qed.

Lemma post_recommend_eq (req_body : jsval) :
  post_recommend req_body
  = match recommend_try req_body [] with
    | (Ok r, log) => (Ok r, log)
    | (Throw e, log) =>
        (Ok (mkResponse 500 (ErrorDoc "Failed to get recommendations"
                               (Some (message e)))), log)
    end.
Proof. reflexivity. Qed.

Lemma recommend_try_throws (req_body : jsval) (log : list string) :
  (forall name, exists e, property name req_body = Throw e) ->
  exists e, recommend_try req_body log = (Throw e, log).
Proof.
  intros H. destruct (H "titles") as [e He]. exists e.
  unfold Server.recommend_try, bind, lift. rewrite He. reflexivity.
Qed.

Lemma no_titles_array (l : list jsval) :
  no_titles (JArr l) = match l with [] => true | _ :: _ => false end.
Proof. destruct l; reflexivity. Qed.

(** How the part of the handler inside [try] can end. *)
Lemma recommend_try_outcome (req_body : jsval) (log log' : list string)
    (r : response) :
  recommend_try req_body log = (Ok r, log') ->
  (r = mkResponse 400 (ErrorDoc "Please provide at least one title" None) /\
   log' = log /\
   exists t, property "titles" req_body = Ok t /\ no_titles t = true) \/
  (exists titles mt genres exclude kind based_on,
      property "titles" req_body = Ok (JArr titles) /\
      property "mediaType" req_body = Ok mt /\
      to_string (defaulted (JStr "manga") mt) = Ok kind /\
      join_strings ", " titles = Ok based_on /\
      assemble (selected mt) titles genres exclude log = (Ok r, log')).
Proof.
  intros H. destruct (property_cases req_body) as [Ht|[field Hf]].
  - destruct (recommend_try_throws req_body log Ht) as [e He]. congruence.
  - rewrite (recommend_try_fields _ _ Hf) in H.
    destruct (no_titles (field "titles")) eqn:Hn.
    + apply ret_ok in H. destruct H as [<- <-]. left. eauto.
    + apply bind_ok in H. destruct H as [kind [mid [Hk H]]].
      apply lift_ok in Hk. destruct Hk as [Hk ->].
      destruct (field "titles") as [| | | | |l|] eqn:Hti;
        try (unfold throw in H; discriminate).
      apply bind_ok in H. destruct H as [based_on [mid [Hb H]]].
      apply lift_ok in Hb. destruct Hb as [Hb ->].
      right.
      exists l, (field "mediaType"), (field "genres"), (field "exclude"),
        kind, based_on.
      rewrite !Hf, Hti. auto.
Qed.

(** The handler either ends with nothing submitted to the queue (the
    400 of the validation, or something thrown while the body is read or
    the log line is written), or it runs an assembler, and then on titles
    every one of which converts to the string [ToString] gives. *)
Lemma handler_dispatch (req_body : jsval) (log : list string) :
  (exists x, recommend_try req_body log = (x, log)) \/
  (exists titles mt genres exclude,
      property "titles" req_body = Ok (JArr titles) /\
      property "mediaType" req_body = Ok mt /\
      property "genres" req_body = Ok genres /\
      property "exclude" req_body = Ok exclude /\
      (forall i, to_string (index titles i) = Ok (ToString (index titles i))) /\
      recommend_try req_body log
      = assemble (selected mt) titles genres exclude log).
Proof.
  destruct (property_cases req_body) as [Ht|[field Hf]].
  - left. destruct (recommend_try_throws req_body log Ht) as [e He]. eauto.
  - rewrite (recommend_try_fields _ _ Hf).
    destruct (no_titles (field "titles")) eqn:Hn; [left; eexists; reflexivity|].
    unfold bind at 1, lift at 1.
    destruct (to_string _) as [kind|e]; [|left; eexists; reflexivity].
    destruct (field "titles") as [| | | | |l|] eqn:Hti;
      try (left; eexists; reflexivity).
    unfold bind at 1, lift at 1.
    destruct (join_strings ", " l) as [based_on|e] eqn:Hj;
      [|left; eexists; reflexivity].
    right. exists l, (field "mediaType"), (field "genres"), (field "exclude").
    rewrite !Hf, Hti.
    destruct (joined_elements_convert _ _ _ Hj) as [_ Hi]. auto 10.
Qed.

(** Whatever the handler is given, it answers, and with one of the four
    kinds of document. *)
Lemma post_recommend_answers (req_body : jsval) :
  exists r log,
    post_recommend req_body = (Ok r, log) /\
    (is_success r \/ is_error 400 r \/ is_error 404 r \/ is_error 500 r).
Proof.
  rewrite post_recommend_eq.
  destruct (recommend_try req_body []) as [[r|e] log] eqn:Ht.
  - exists r, log. split; [reflexivity|].
    apply recommend_try_outcome in Ht.
    destruct Ht as [[-> _]|[titles [mt [g [x [k [b [_ [_ [_ [_ Ha]]]]]]]]]]].
    + right. left. split; simpl; eauto.
    + apply assemble_outcome in Ha. destruct Ha as [[Ha _]|[Ha _]]; auto.
  - eexists. exists log. split; [reflexivity|].
    right. right. right. split; simpl; eauto.
Qed.



Lemma rbind_ok {A B : Type} (x : result A) (f : A -> result B) (b : B) :
  rbind x f = Ok b -> exists a, x = Ok a /\ f a = Ok b.
Proof. destruct x; simpl; intros H; [eauto | discriminate]. Qed.

Lemma genre_match_ok (v : jsval) (m : media) (b : bool) :
  genre_match v m = Ok b ->
  exists names listed,
    genre_names m = Ok names /\ lower_all v = Ok listed /\
    b = some_included listed (map toLowerCase names).
Proof.
  unfold genre_match. intros H.
  apply rbind_ok in H. destruct H as [names [Hn H]].
  apply rbind_ok in H. destruct H as [listed [Hl H]].
  inversion H. eauto.
Qed.

(** An entry kept by the first tier has passed both filters. *)
Lemma crowd_entry_filtered (md : medium) (titles : list jsval)
    (genres exclude : jsval) (r : suggestion) (m : media)
    (e : recommendation) :
  crowd_entry numeric_string_positive md titles genres exclude r m
  = Ok (Some e) ->
  (filter_given numeric_string_positive genres = true ->
   exists listed, lower_all genres = Ok listed /\
     some_included listed (map toLowerCase (rec_genres e)) = true) /\
  (filter_given numeric_string_positive exclude = true ->
   exists listed, lower_all exclude = Ok listed /\
     some_included listed (map toLowerCase (rec_genres e)) = false).
Proof.
  unfold crowd_entry. intros H.
  apply rbind_ok in H. destruct H as [wanted [Hw H]].
  destruct wanted; cbn [negb] in H; [|discriminate].
  apply rbind_ok in H. destruct H as [excluded [Hx H]].
  destruct excluded; [discriminate|].
  apply rbind_ok in H. destruct H as [by_whom [_ H]].
  apply rbind_ok in H. destruct H as [names [Hn H]].
  inversion H; subst; clear H. cbn [rec_genres]. split; intros Hg.
  - rewrite Hg in Hw. apply genre_match_ok in Hw.
    destruct Hw as [names' [listed [Hn' [Hl Hb]]]].
    exists listed. split; [exact Hl|]. congruence.
  - rewrite Hg in Hx. apply genre_match_ok in Hx.
    destruct Hx as [names' [listed [Hn' [Hl Hb]]]].
    exists listed. split; [exact Hl|]. congruence.
Qed.

End Facts.

Example demo_manga :
  post_recommend (demo_catalogue Manga) never_positive (demo_request Manga)
  = (Ok (demo_response Manga),
     [search_url Manga (JStr "Naruto") "1"; suggestions_url Manga 20;
      item_url Manga 11; item_url Manga 30; genre_url Manga 1;
      top_url Manga "5"]).
Proof. vm_compute. reflexivity. Qed.

Example demo_anime :
  post_recommend (demo_catalogue Anime) never_positive (demo_request Anime)
  = (Ok (demo_response Anime),
     [search_url Anime (JStr "Naruto") "1"; suggestions_url Anime 20;
      item_url Anime 11; item_url Anime 30; genre_url Anime 1;
      top_url Anime "5"]).
Proof. vm_compute. reflexivity. Qed.

Example demo_unknown_title :
  post_recommend (demo_catalogue Manga) never_positive
    (JObj [("titles", JArr [JStr "Nana"; JStr "Monster"])])
  = (Ok (mkResponse 404
           (ErrorDoc ("Could not find manga " ++ dquote ++ "Nana" ++ dquote
                        ++ " or " ++ dquote ++ "Monster" ++ dquote) None)),
     [search_url Manga (JStr "Nana") "1";
      search_url Manga (JStr "Monster") "1"]).
Proof. vm_compute. reflexivity. Qed.

Example demo_upstream_down :
  post_recommend unreachable_catalogue never_positive (demo_request Manga)
  = (Ok (mkResponse 500
           (ErrorDoc "Failed to get recommendations"
                     (Some "connect ECONNREFUSED"))),
     [search_url Manga (JStr "Naruto") "1"]).
Proof. vm_compute. reflexivity. Qed.

Example demo_no_titles :
  post_recommend unreachable_catalogue never_positive
    (JObj [("genres", JArr [JStr "Romance"])])
  = (Ok (mkResponse 400
           (ErrorDoc "Please provide at least one title" None)), []).
Proof. reflexivity. Qed.

(** A title that cannot be converted to a string stops the handler at
    the log line, and so does a media type that cannot, before
    [titles.join] is reached. *)
Example demo_unprintable_title :
  post_recommend (demo_catalogue Manga) never_positive
    (JObj [("titles", JArr [JStr "Naruto"; JObj [("toString", JNum 1)]])])
  = (Ok (mkResponse 500
           (ErrorDoc "Failed to get recommendations"
                     (Some "cannot convert object to primitive value"))), []).
Proof. reflexivity. Qed.

Example demo_string_titles_unprintable_media_type :
  post_recommend (demo_catalogue Manga) never_positive
    (JObj [("titles", JStr "Naruto");
           ("mediaType", JObj [("toString", JNum 1)])])
  = (Ok (mkResponse 500
           (ErrorDoc "Failed to get recommendations"
                     (Some "cannot convert object to primitive value"))), []).
Proof. reflexivity. Qed.

(** An object without a [toString] of its own is written as
    ["[object Object]"], and the search goes out. *)
Example demo_object_title :
  post_recommend (demo_catalogue Manga) never_positive
    (JObj [("titles", JArr [JObj [("name", JStr "Naruto")]])])
  = (Ok (mkResponse 404
           (ErrorDoc ("Could not find manga " ++ dquote ++ "[object Object]"
                        ++ dquote) None)),
     [search_url Manga (JStr "[object Object]") "1"]).
Proof. vm_compute. reflexivity. Qed.

Lemma demo_manga_assembler :
  getMangaRecommendations (demo_catalogue Manga) never_positive
    [JStr "Naruto"] (JArr [JStr "Romance"]) (JArr [JStr "action"]) []
  = (Ok (demo_response Manga),
     [search_url Manga (JStr "Naruto") "1"; suggestions_url Manga 20;
      item_url Manga 11; item_url Manga 30; genre_url Manga 1;
      top_url Manga "5"]).
Proof. vm_compute. reflexivity. Qed.

Lemma recommendations_capped_witness :
  List.length (demo_recommendations Manga) <= 5.
Proof.
  eapply (recommendations_capped (demo_catalogue Manga) never_positive).
  - left. exact demo_manga_assembler.
  - reflexivity.
Defined.



Lemma demo_bleach (md : medium) :
  let e := demo_recommendation md "Bleach"
             "Shares the Action genre with Naruto" ["Action"] in
  exists recs bt mt,
    body (demo_response md) = RecommendationsDoc recs bt mt /\ In e recs /\
    some_included ["action"] (map toLowerCase (rec_genres e)) = true /\
    some_included ["romance"] (map toLowerCase (rec_genres e)) = false.
Proof.
  intros e. do 3 eexists. split; [reflexivity|].
  split; [right; left; reflexivity|]. split; reflexivity.
Qed.

(** C9.  In the manga and anime assemblers the [genres] and [exclude]
    filters act on the first (crowd-sourced) tier only.  An entry that
    tier keeps has passed both filters; what follows the first tier (the
    genre-based and the top-ranked tier and the cut to five) is a
    function of the entries collected so far that is the same for all
    filters; and for each of the two catalogues there is a request whose
    answer, with status 200, carries an entry that has an excluded genre
    and none of the requested ones. *)
Theorem filters_only_on_crowd_tier :
  (forall nsp md titles genres exclude r m e,
      crowd_entry nsp md titles genres exclude r m = Ok (Some e) ->
      (filter_given nsp genres = true ->
       exists listed, lower_all genres = Ok listed /\
         some_included listed (map toLowerCase (rec_genres e)) = true) /\
      (filter_given nsp exclude = true ->
       exists listed, lower_all exclude = Ok listed /\
         some_included listed (map toLowerCase (rec_genres e)) = false)) /\
  (forall up nsp md titles base,
      exists rest : list recommendation -> M response,
        forall genres exclude,
          recommend_from up nsp md titles genres exclude base
          = bind (crowd_tier up nsp md titles genres exclude (mal_id base))
                 rest) /\
  (forall md,
      exists r log recs bt mt e wanted excluded,
        post_recommend (demo_catalogue md) never_positive (demo_request md)
        = (Ok r, log) /\
        status r = 200 /\
        body r = RecommendationsDoc recs bt mt /\ In e recs /\
        property "genres" (demo_request md) = Ok wanted /\
        property "exclude" (demo_request md) = Ok excluded /\
        filter_given never_positive wanted = true /\
        filter_given never_positive excluded = true /\
        rbind (lower_all excluded) (fun listed =>
          Ok (some_included listed (map toLowerCase (rec_genres e))))
        = Ok true /\
        rbind (lower_all wanted) (fun listed =>
          Ok (some_included listed (map toLowerCase (rec_genres e))))
        = Ok false).
Proof.
  split; [|split].
  - intros nsp md titles genres exclude r m e.
    apply crowd_entry_filtered.
  - intros up nsp md titles base.
    exists (fun crowd =>
              bind (genre_tier up md titles base crowd) (fun with_genre =>
              bind (top_tier up md titles base with_genre) (fun with_top =>
              ret (mkResponse 200
                     (RecommendationsDoc (firstn 5 with_top) (title base)
                        (segment md)))))).
    reflexivity.
  - intros md.
    exists (demo_response md). eexists.
    destruct (demo_bleach md) as [recs [bt [mt [Hb [Hin _]]]]].
    exists recs, bt, mt. eexists.
    exists (JArr [JStr "Romance"]), (JArr [JStr "action"]).
    split; [destruct md; [exact demo_manga | exact demo_anime]|].
    split; [reflexivity|]. split; [exact Hb|]. split; [exact Hin|].
    repeat split; reflexivity.
Qed.

End ServerFacts.

(** * Further properties of the request queue *)

Module RequestQueueExtras.
Import RequestQueue RequestQueueFacts.

Lemma split_of_seq (a b : list nat) (n : nat) :
  a ++ b = seq 0 n ->
  a = seq 0 (length a) /\ b = seq (length a) (length b).
Proof.
  intros H. pose proof (prefix_of_seq _ _ _ H) as Ha. split; [exact Ha|].
  assert (Hn : n = length a + length b).
  { rewrite <- (length_seq n 0), <- H, length_app. reflexivity. }
  rewrite Hn, seq_app, Ha in H. rewrite length_seq in H.
  apply app_inv_head in H. exact H.
Qed.

Section Extras.

Context {W V E : Type}.
Local Abbreviation state := (@state W V E).
Local Abbreviation action := (@action W V E).
Local Abbreviation event := (@event W V E).
Local Abbreviation job := (@job W).

Ltac fields :=
  cbn [queue isProcessing awaiting timers now promises trace] in *.

(** Jobs already invoked have smaller handles than jobs still queued, and
    all handles are below the number of promises created. *)
Lemma handles_sorted (s : state) :
  invariant s ->
  (forall j, In j (invoked_jobs (trace s)) ->
             handle j < length (invoked_jobs (trace s))) /\
  (forall j, In j (queue s) ->
             length (invoked_jobs (trace s)) <= handle j < promises s).
Proof.
  intros I. pose proof (inv_ids _ I) as Hi.
  rewrite <- (inv_fifo _ I), map_app in Hi.
  assert (Hn : promises s
               = length (invoked_jobs (trace s)) + length (queue s)).
  { rewrite <- (length_seq (promises s) 0), <- Hi, length_app, !length_map.
    reflexivity. }
  apply split_of_seq in Hi. rewrite !length_map in Hi.
  destruct Hi as [Ha Hb]. split; intros j Hj; apply (in_map handle) in Hj.
  - rewrite Ha in Hj. apply in_seq in Hj. lia.
  - rewrite Hb in Hj. apply in_seq in Hj. lia.
Qed.

Lemma delivered_is_invoked (s : state) (j : job) (o : outcome) (t : Z) :
  invariant s -> In (Delivered j o t) (trace s) ->
  In j (invoked_jobs (trace s)).
Proof.
  intros I H. rewrite <- (inv_running _ I). apply in_app_iff. left.
  apply in_delivered_jobs. eauto.
Qed.

Lemma invoked_handle_bound (s : state) (j : job) (t : Z) :
  invariant s -> In (Invoked j t) (trace s) -> handle j < promises s.
Proof.
  intros I H. destruct (handles_sorted s I) as [Ha _].
  assert (Hj : In j (invoked_jobs (trace s))) by (apply in_invoked_jobs; eauto).
  specialize (Ha j Hj).
  pose proof (inv_ids _ I) as Hi. rewrite <- (inv_fifo _ I) in Hi.
  assert (length (invoked_jobs (trace s)) <= promises s); [|lia].
  rewrite <- (length_seq (promises s) 0), <- Hi, length_map, length_app. lia.
Qed.

(** When nothing is running, every invoked job has had its outcome
    delivered, no earlier than it was invoked. *)
Lemma invoked_then_delivered (s : state) (j : job) (t : Z) :
  invariant s -> start_invariant s -> awaiting s = [] ->
  In (Invoked j t) (trace s) ->
  exists o td, In (Delivered j o td) (trace s) /\ (t <= td)%Z.
Proof.
  intros I S Ha H.
  assert (Hj : In j (delivered_jobs (trace s))).
  { pose proof (inv_running _ I) as Hr. rewrite Ha, app_nil_r in Hr.
    rewrite Hr. apply in_invoked_jobs. eauto. }
  apply in_delivered_jobs in Hj. destruct Hj as [o [td Hd]].
  exists o, td. split; [exact Hd|].
  apply (si_after _ S _ _ _ _ _ Hd H). reflexivity.
Qed.

Lemma start_invariant_init : start_invariant (@init W V E).
Proof.
  constructor; simpl; try (intros; contradiction).
  split; [lia | intros e []].
Qed.

(** A new invocation at the current clock value keeps the facts about
    starts, provided every delivery is at least the delay old and the
    new job's handle is larger than all those invoked so far. *)
Lemma start_invariant_invoke (s : state) (pre : list event) (j : job) :
  invariant s -> start_invariant s -> awaiting s = [] ->
  (forall e, In e pre -> In e (trace s) \/ exists j' t, e = Submitted j' t /\ (0 <= t)%Z) ->
  (forall e, In e (trace s) -> In e pre) ->
  (forall t, In t (delivery_times (trace s)) ->
             (t + RATE_LIMIT_DELAY <= now s)%Z) ->
  (forall j' t, In (Invoked j' t) (trace s) -> handle j' < handle j) ->
  forall q b a ts p,
    start_invariant
      {| queue := q; isProcessing := b; awaiting := a; timers := ts;
         now := now s; promises := p;
         trace := pre ++ [Invoked j (now s)] |}.
Proof.
  intros I S Ha Hpre Hsub Hdue Hmax q b a ts p.
  assert (Hold_d : forall j0 o t, In (Delivered j0 o t) pre ->
                                  In (Delivered j0 o t) (trace s)).
  { intros j0 o t H. destruct (Hpre _ H) as [H'|[j' [t' [H' _]]]];
      [exact H' | discriminate]. }
  assert (Hold_i : forall j0 t, In (Invoked j0 t) pre ->
                                In (Invoked j0 t) (trace s)).
  { intros j0 t H. destruct (Hpre _ H) as [H'|[j' [t' [H' _]]]];
      [exact H' | discriminate]. }
  constructor; fields.
  - intros j0 o td j' t H1 H2 Heq. apply in_app_iff in H1, H2.
    destruct H1 as [H1|[H1|[]]]; [|discriminate]. apply Hold_d in H1.
    destruct H2 as [H2|[H2|[]]].
    + apply Hold_i in H2. apply (si_after _ S _ _ _ _ _ H1 H2 Heq).
    + inversion H2; subst.
      apply (delivered_is_invoked s) in H1; auto.
      apply in_invoked_jobs in H1. destruct H1 as [t1 H1].
      specialize (Hmax _ _ H1). lia.
  - intros j0 t j' t' H1 H2 Hlt. apply in_app_iff in H1, H2.
    destruct H1 as [H1|[H1|[]]]; destruct H2 as [H2|[H2|[]]].
    + apply Hold_i in H1, H2. apply (si_starts _ S _ _ _ _ H1 H2 Hlt).
    + inversion H2; subst. apply Hold_i in H1.
      destruct (invoked_then_delivered s j0 t I S Ha H1) as [o [td [Hd Hle]]].
      assert (td + RATE_LIMIT_DELAY <= now s)%Z; [|lia].
      apply Hdue. apply in_delivery_times. eauto.
    + inversion H1; subst. apply Hold_i in H2.
      specialize (Hmax _ _ H2). lia.
    + inversion H1; inversion H2; subst. lia.
  - destruct (si_origin _ S) as [Hn He]. split; [exact Hn|].
    intros e Hin. apply in_app_iff in Hin. destruct Hin as [Hin|[<-|[]]].
    + destruct (Hpre _ Hin) as [H'|[j' [t' [-> Ht]]]]; [auto | exact Ht].
    + exact Hn.
Qed.

Lemma start_invariant_step (a : action) (s s' : state) :
  invariant s -> start_invariant s -> step a s = Some s' ->
  start_invariant s'.
Proof.
  intros I S H. destruct (si_origin _ S) as [Hn He].
  destruct a as [fn|id o|d|dt].
  - simpl in H. inversion H; subst; clear H.
    destruct (isProcessing s) eqn:Hb.
    + constructor; unfold push; fields.
      * intros j o td j' t H1 H2. apply in_app_iff in H1, H2.
        destruct H1 as [H1|[H1|[]]]; [|discriminate].
        destruct H2 as [H2|[H2|[]]]; [|discriminate].
        apply (si_after _ S _ _ _ _ _ H1 H2).
      * intros j t j' t' H1 H2. apply in_app_iff in H1, H2.
        destruct H1 as [H1|[H1|[]]]; [|discriminate].
        destruct H2 as [H2|[H2|[]]]; [|discriminate].
        apply (si_starts _ S _ _ _ _ H1 H2).
      * split; [exact Hn|]. intros e Hin. apply in_app_iff in Hin.
        destruct Hin as [Hin|[<-|[]]]; [auto | exact Hn].
    + destruct (inv_idle _ I Hb) as [Hq [Ha Ht]].
      unfold processQueue, push. fields. rewrite Hq. cbn [app].
      apply (start_invariant_invoke s); auto.
      * intros e Hin. apply in_app_iff in Hin.
        destruct Hin as [Hin|[<-|[]]]; eauto.
      * intros e Hin. apply in_app_iff. auto.
      * apply (inv_rest _ I Hb).
      * intros j' t Hin. cbn [handle].
        apply (invoked_handle_bound s j' t I Hin).
  - apply settle_inv in H; auto.
    destruct H as [j [_ [Ha [Ht [Hb ->]]]]].
    constructor; unfold processQueue_resume; fields.
    + intros j0 o0 td j' t H1 H2 Heq. apply in_app_iff in H1, H2.
      destruct H2 as [H2|[H2|[]]]; [|discriminate].
      destruct H1 as [H1|[H1|[]]].
      * apply (si_after _ S _ _ _ _ _ H1 H2 Heq).
      * inversion H1; subst. apply (inv_clock _ I _ H2).
    + intros j0 t j' t' H1 H2. apply in_app_iff in H1, H2.
      destruct H1 as [H1|[H1|[]]]; [|discriminate].
      destruct H2 as [H2|[H2|[]]]; [|discriminate].
      apply (si_starts _ S _ _ _ _ H1 H2).
    + split; [exact Hn|]. intros e Hin. apply in_app_iff in Hin.
      destruct Hin as [Hin|[<-|[]]]; [auto | exact Hn].
  - apply fire_inv in H; auto. destruct H as [Ha [Ht [Hb [Hd ->]]]].
    unfold processQueue, clear_timer. fields.
    destruct (queue s) as [|j q] eqn:Hq.
    + constructor; fields.
      * apply (si_after _ S).
      * apply (si_starts _ S).
      * auto.
    + apply (start_invariant_invoke s); auto.
      * intros t Hin. pose proof (inv_timer _ I t d Hin) as Hx.
        rewrite Ht in Hx. specialize (Hx (or_introl eq_refl)). lia.
      * intros j' t Hin. destruct (handles_sorted s I) as [H1 H2].
        assert (Hj : In j' (invoked_jobs (trace s)))
          by (apply in_invoked_jobs; eauto).
        specialize (H1 j' Hj). specialize (H2 j). rewrite Hq in H2.
        specialize (H2 (or_introl eq_refl)). lia.
  - simpl in H. destruct (0 <=? dt)%Z eqn:Hdt; [|discriminate].
    apply Z.leb_le in Hdt. inversion H; subst.
    constructor; unfold tick; fields.
    + apply (si_after _ S).
    + apply (si_starts _ S).
    + split; [lia | exact He].
Qed.

Lemma both_invariants_run (acts : list action) (s s' : state) :
  invariant s -> start_invariant s -> run acts s = Some s' ->
  invariant s' /\ start_invariant s'.
Proof.
  revert s. induction acts as [|a acts IH]; intros s I S H; simpl in H.
  - inversion H; subst; auto.
  - destruct (step a s) as [s1|] eqn:Hs; [|discriminate].
    apply (IH s1); auto.
    + eapply invariant_step; eauto.
    + eapply start_invariant_step; eauto.
Qed.

Lemma reachable_start_invariant (s : state) :
  reachable s -> start_invariant s.
Proof.
  intros [acts H].
  apply (both_invariants_run acts init s invariant_init start_invariant_init H).
Qed.

(** X1.  Start-to-start spacing: the work functions of two different jobs
    are never invoked less than [RATE_LIMIT_DELAY] apart, so the upstream
    service sees at most one request start per second. *)
Theorem starts_are_spaced (s : state) (j j' : job) (t t' : Z) :
  reachable s ->
  In (Invoked j t) (trace s) -> In (Invoked j' t') (trace s) ->
  handle j < handle j' ->
  (t + RATE_LIMIT_DELAY <= t')%Z.
Proof.
  intros R. apply (si_starts _ (reachable_start_invariant _ R)).
Qed.

(** X2.  Throughput bound: with the clock at 0 when the process starts,
    the work function of the job with handle [k] (the [k+1]-th
    submission) is not invoked before [k * RATE_LIMIT_DELAY]. *)
Theorem start_not_before (s : state) (j : job) (t : Z) :
  reachable s -> In (Invoked j t) (trace s) ->
  (Z.of_nat (handle j) * RATE_LIMIT_DELAY <= t)%Z.
Proof.
  intros R. pose proof (reachable_invariant _ R) as I.
  pose proof (reachable_start_invariant _ R) as St.
  pose proof (invoked_handles _ I) as Hh.
  remember (handle j) as k eqn:Hk. revert j t Hk.
  induction k as [|k IH]; intros j t Hk Hin.
  - destruct (si_origin _ St) as [_ He]. specialize (He _ Hin).
    simpl in He. simpl. lia.
  - assert (Hj : In (S k) (map handle (invoked_jobs (trace s)))).
    { rewrite Hk. apply in_map. apply in_invoked_jobs. eauto. }
    assert (Hp : In k (map handle (invoked_jobs (trace s)))).
    { rewrite Hh in *. apply in_seq in Hj. apply in_seq. lia. }
    apply in_map_iff in Hp. destruct Hp as [j0 [Hj0 Hin0]].
    apply in_invoked_jobs in Hin0. destruct Hin0 as [t0 Hin0].
    specialize (IH j0 t0 (eq_sym Hj0) Hin0).
    assert (t0 + RATE_LIMIT_DELAY <= t)%Z.
    { apply (si_starts _ St _ _ _ _ Hin0 Hin). lia. }
    unfold RATE_LIMIT_DELAY in *. lia.
Qed.

(** X3.  An outcome is delivered only to a job whose work function was
    invoked, and no earlier than that invocation; and no work function is
    invoked twice (the queue never retries). *)
Theorem delivered_after_single_invocation (s : state) :
  reachable s ->
  (forall j o td, In (Delivered j o td) (trace s) ->
      exists t, In (Invoked j t) (trace s) /\ (t <= td)%Z) /\
  NoDup (map handle (invoked_jobs (trace s))).
Proof.
  intros R. pose proof (reachable_invariant _ R) as I.
  pose proof (reachable_start_invariant _ R) as S. split.
  - intros j o td Hd.
    pose proof (delivered_is_invoked s j o td I Hd) as Hj.
    apply in_invoked_jobs in Hj. destruct Hj as [t Hi]. exists t.
    split; [exact Hi|]. apply (si_after _ S _ _ _ _ _ Hd Hi). reflexivity.
  - rewrite (invoked_handles _ I). apply seq_NoDup.
Qed.

(** X4.  Outcomes reach the callers in submission order, and every
    submitted job is accounted for: the submitted jobs are, in order,
    those whose outcome was delivered, then the one running, then those
    still queued. *)
Theorem delivery_in_submission_order (s : state) :
  reachable s ->
  submitted_jobs (trace s) = delivered_jobs (trace s) ++ awaiting s ++ queue s /\
  promises s
  = length (delivered_jobs (trace s)) + length (awaiting s) + length (queue s).
Proof.
  intros R. pose proof (reachable_invariant _ R) as I.
  assert (H : submitted_jobs (trace s)
              = delivered_jobs (trace s) ++ awaiting s ++ queue s).
  { rewrite <- (inv_fifo _ I), <- (inv_running _ I), app_assoc. reflexivity. }
  split; [exact H|].
  rewrite <- (length_seq (promises s) 0), <- (inv_ids _ I), length_map, H.
  rewrite !length_app. lia.
Qed.

Lemma stalled_step (a : action) (s s' : state) (j : job) :
  invariant s -> awaiting s = [j] -> is_settle a = false ->
  step a s = Some s' ->
  awaiting s' = [j] /\
  invoked_jobs (trace s') = invoked_jobs (trace s) /\
  delivered_jobs (trace s') = delivered_jobs (trace s).
Proof.
  intros I Ha Hs H. destruct a as [fn|id o|d|dt]; try discriminate.
  - simpl in H. inversion H; subst; clear H.
    destruct (isProcessing s) eqn:Hb.
    + unfold push. fields.
      rewrite invoked_jobs_app, delivered_jobs_app. simpl.
      rewrite !app_nil_r. auto.
    + destruct (inv_idle _ I Hb) as [_ [Ha' _]]. congruence.
  - apply fire_inv in H; auto. destruct H as [Ha' _]. congruence.
  - simpl in H. destruct (0 <=? dt)%Z; [|discriminate].
    inversion H; subst. auto.
Qed.

(** X5.  No timeout: while the running work function does not settle,
    whatever else happens (submissions, time passing) the same job stays
    in the execution slot, no other work function is invoked and no
    outcome is delivered; the jobs behind it wait for ever. *)
Theorem stalled_without_settlement (acts : list action) (s s' : state)
    (j : job) :
  reachable s -> awaiting s = [j] ->
  forallb (fun a => negb (is_settle a)) acts = true ->
  run acts s = Some s' ->
  awaiting s' = [j] /\
  invoked_jobs (trace s') = invoked_jobs (trace s) /\
  delivered_jobs (trace s') = delivered_jobs (trace s).
Proof.
  intros R. pose proof (reachable_invariant _ R) as I. clear R.
  revert s I. induction acts as [|a acts IH]; intros s I Ha Hall H.
  - simpl in H. inversion H; subst. auto.
  - simpl in Hall, H. apply andb_prop in Hall. destruct Hall as [Hs Hall].
    apply negb_true_iff in Hs.
    destruct (step a s) as [s1|] eqn:Hstep; [|discriminate].
    destruct (stalled_step a s s1 j I Ha Hs Hstep) as [Ha1 [Hi1 Hd1]].
    destruct (IH s1 (invariant_step _ _ _ I Hstep) Ha1 Hall H)
      as [Ha2 [Hi2 Hd2]].
    repeat split; congruence.
Qed.

Lemma idle_step (a : action) (s s' : state) :
  invariant s -> isProcessing s = false -> is_call a = false ->
  step a s = Some s' ->
  isProcessing s' = false /\ trace s' = trace s /\ (now s <= now s')%Z.
Proof.
  intros I Hb Hc H. destruct a as [fn|id o|d|dt]; try discriminate.
  - apply settle_inv in H; auto. destruct H as [j [_ [_ [_ [Hb' _]]]]].
    congruence.
  - apply fire_inv in H; auto. destruct H as [_ [_ [Hb' _]]]. congruence.
  - simpl in H. destruct (0 <=? dt)%Z eqn:Hdt; [|discriminate].
    apply Z.leb_le in Hdt. inversion H; subst. unfold tick. fields.
    repeat split; auto. lia.
Qed.

(** X6.  An idle queue stays idle until the next submission: without a
    call of [enqueueRequest] nothing is invoked or delivered, no timer is
    set and the flag stays clear; only the clock moves, and neither a
    settlement nor a timer can occur. *)
Theorem idle_until_submission (acts : list action) (s s' : state) :
  reachable s -> isProcessing s = false ->
  forallb (fun a => negb (is_call a)) acts = true ->
  run acts s = Some s' ->
  isProcessing s' = false /\ trace s' = trace s /\
  queue s' = [] /\ awaiting s' = [] /\ timers s' = [] /\
  (now s <= now s')%Z /\
  (forall id o, step (Settle id o) s' = None) /\
  (forall d, step (Fire d) s' = None).
Proof.
  intros R. pose proof (reachable_invariant _ R) as I. clear R.
  assert (Hdisabled : forall x : state, awaiting x = [] -> timers x = [] ->
            (forall id o, step (Settle id o) x = None) /\
            (forall d, step (Fire d) x = None)).
  { intros x Ha Ht. split; intros; simpl; rewrite ?Ha, ?Ht; reflexivity. }
  revert s I. induction acts as [|a acts IH]; intros s I Hb Hall H.
  - simpl in H. inversion H; subst.
    destruct (inv_idle _ I Hb) as [Hq [Ha Ht]].
    destruct (Hdisabled s' Ha Ht) as [Hs Hf].
    repeat split; auto. lia.
  - simpl in Hall, H. apply andb_prop in Hall. destruct Hall as [Hc Hall].
    apply negb_true_iff in Hc.
    destruct (step a s) as [s1|] eqn:Hstep; [|discriminate].
    destruct (idle_step a s s1 I Hb Hc Hstep) as [Hb1 [Ht1 Hn1]].
    destruct (IH s1 (invariant_step _ _ _ I Hstep) Hb1 Hall H)
      as [Hb2 [Ht2 [Hq2 [Ha2 [Hti2 [Hn2 [Hs Hf]]]]]]].
    repeat split; auto; try congruence. lia.
Qed.

End Extras.

Lemma starts_are_spaced_witness : (0 + RATE_LIMIT_DELAY <= 1040)%Z.
Proof.
  apply (starts_are_spaced demo_next (mkJob 7 0) (mkJob 8 1) 0 1040).
  - exact demo_next_reachable.
  - simpl. tauto.
  - simpl. tauto.
  - simpl. lia.
Defined.

Lemma start_not_before_witness :
  (Z.of_nat (handle (mkJob 8 1)) * RATE_LIMIT_DELAY <= 1040)%Z.
Proof.
  apply (start_not_before demo_next (mkJob 8 1) 1040).
  - exact demo_next_reachable.
  - simpl. tauto.
Defined.

Lemma delivered_after_single_invocation_witness :
  (forall j o td, In (Delivered j o td) (trace demo_idle) ->
      exists t, In (Invoked j t) (trace demo_idle) /\ (t <= td)%Z) /\
  NoDup (map handle (invoked_jobs (trace demo_idle))).
Proof.
  apply (delivered_after_single_invocation demo_idle).
  exact demo_idle_reachable.
Defined.

Lemma delivery_in_submission_order_witness :
  submitted_jobs (trace demo_busy)
  = delivered_jobs (trace demo_busy) ++ awaiting demo_busy ++ queue demo_busy /\
  promises demo_busy
  = length (delivered_jobs (trace demo_busy)) + length (awaiting demo_busy)
    + length (queue demo_busy).
Proof.
  apply (delivery_in_submission_order demo_busy). exact demo_busy_reachable.
Defined.

Lemma stalled_without_settlement_witness :
  awaiting (tick 5000 (push 9 demo_busy)) = [mkJob 7 0] /\
  invoked_jobs (trace (tick 5000 (push 9 demo_busy)))
  = invoked_jobs (trace demo_busy) /\
  delivered_jobs (trace (tick 5000 (push 9 demo_busy)))
  = delivered_jobs (trace demo_busy).
Proof.
  apply (stalled_without_settlement [Call 9; Elapse 5000] demo_busy).
  - exact demo_busy_reachable.
  - reflexivity.
  - reflexivity.
  - reflexivity.
Defined.

Lemma idle_until_submission_witness :
  isProcessing (tick 10 demo_idle) = false /\
  trace (tick 10 demo_idle) = trace demo_idle /\
  queue (tick 10 demo_idle) = [] /\ awaiting (tick 10 demo_idle) = [] /\
  timers (tick 10 demo_idle) = [] /\
  (now demo_idle <= now (tick 10 demo_idle))%Z /\
  (forall id o, step (Settle id o) (tick 10 demo_idle) = None) /\
  (forall d, step (Fire d) (tick 10 demo_idle) = None).
Proof.
  apply (idle_until_submission [Elapse 10]).
  - exact demo_idle_reachable.
  - reflexivity.
  - reflexivity.
  - reflexivity.
Defined.

End RequestQueueExtras.

(** * Further properties of the recommendation endpoint *)

Module ServerExtras.
Import Server ServerFacts.

Local Open Scope string_scope.

(** ** Counting the requests a handler submits *)

Lemma budget_weaken {A : Type} (m : M A) (a b : nat) :
  submits_at_most m a -> a <= b -> submits_at_most m b.
Proof. intros H Hab log. specialize (H log). lia. Qed.

Lemma budget_ret {A : Type} (x : A) : submits_at_most (ret x) 0.
Proof. intros log. simpl. lia. Qed.

Lemma budget_throw {A : Type} (e : error) : submits_at_most (@throw A e) 0.
Proof. intros log. simpl. lia. Qed.

Lemma budget_lift {A : Type} (x : result A) : submits_at_most (lift x) 0.
Proof. intros log. simpl. lia. Qed.

Lemma budget_bind {A B : Type} (m : M A) (f : A -> M B) (a b : nat) :
  submits_at_most m a -> (forall x, submits_at_most (f x) b) ->
  submits_at_most (bind m f) (a + b).
Proof.
  intros Hm Hf log. unfold bind. specialize (Hm log).
  destruct (m log) as [[x|e] mid]; simpl in Hm.
  - specialize (Hf x mid). lia.
  - simpl. lia.
Qed.

Lemma budget_try_catch {A : Type} (m : M A) (h : error -> M A) (a b : nat) :
  submits_at_most m a -> (forall e, submits_at_most (h e) b) ->
  submits_at_most (try_catch m h) (a + b).
Proof.
  intros Hm Hh log. unfold try_catch. specialize (Hm log).
  destruct (m log) as [[x|e] mid]; simpl in Hm.
  - simpl. lia.
  - specialize (Hh e mid). lia.
Qed.

Lemma budget_mapM {A B : Type} (f : A -> M B) (l : list A) (c : nat) :
  (forall x, submits_at_most (f x) c) ->
  submits_at_most (mapM f l) (c * List.length l).
Proof.
  intros Hf. induction l as [|x r IH]; cbn [mapM List.length].
  - apply (budget_weaken _ 0); [apply budget_ret | lia].
  - apply (budget_weaken _ (c + (c * List.length r + 0))); [|lia].
    apply budget_bind; [apply Hf|]. intros y.
    apply budget_bind; [exact IH|]. intros ys. apply budget_ret.
Qed.

Section Extras.

Variable up : catalogue.
Variable numeric_string_positive : string -> bool.

Local Abbreviation crowd_item := (crowd_item up numeric_string_positive).
Local Abbreviation crowd_tier := (crowd_tier up numeric_string_positive).
Local Abbreviation recommend_from := (recommend_from up numeric_string_positive).
Local Abbreviation manhwa_from := (manhwa_from up numeric_string_positive).
Local Abbreviation assemble := (assemble up numeric_string_positive).
Local Abbreviation post_recommend := (post_recommend up numeric_string_positive).
Local Abbreviation unusable_filter := (unusable_filter numeric_string_positive).

Lemma budget_enqueue_list (u : string) :
  submits_at_most (enqueue_list up u) 1.
Proof. intros log. simpl. rewrite length_app. simpl. lia. Qed.

Lemma budget_enqueue_suggestions (u : string) :
  submits_at_most (enqueue_suggestions up u) 1.
Proof. intros log. simpl. rewrite length_app. simpl. lia. Qed.

Lemma budget_enqueue_item (u : string) :
  submits_at_most (enqueue_item up u) 1.
Proof. intros log. simpl. rewrite length_app. simpl. lia. Qed.

Lemma budget_crowd_item (md : medium) (titles : list jsval)
    (genres exclude : jsval) (r : suggestion) :
  submits_at_most (crowd_item md titles genres exclude r) 1.
Proof.
  unfold Server.crowd_item. apply (budget_weaken _ ((1 + 0) + 0)); [|lia].
  apply budget_try_catch.
  - apply budget_bind; [apply budget_enqueue_item|].
    intros m. apply budget_lift.
  - intros e. apply budget_ret.
Qed.

Lemma budget_crowd_tier (md : medium) (titles : list jsval)
    (genres exclude : jsval) (id : Z) :
  submits_at_most (crowd_tier md titles genres exclude id) 9.
Proof.
  unfold Server.crowd_tier. apply (budget_weaken _ (1 + 8)); [|lia].
  apply budget_bind; [apply budget_enqueue_suggestions|]. intros suggested.
  destruct (0 <? List.length suggested)%nat.
  - apply (budget_weaken _ (1 * List.length (firstn 8 suggested) + 0)).
    + apply budget_bind.
      * apply budget_mapM. intros r. apply budget_crowd_item.
      * intros found. apply budget_ret.
    + rewrite length_firstn. lia.
  - apply (budget_weaken _ 0); [apply budget_ret | lia].
Qed.

Lemma budget_genre_tier (md : medium) (titles : list jsval) (base : media)
    (recs : list recommendation) :
  submits_at_most (genre_tier up md titles base recs) 1.
Proof.
  unfold genre_tier.
  destruct (List.length recs <? 5)%nat;
    [|apply (budget_weaken _ 0); [apply budget_ret | lia]].
  destruct (match media_genres base with Some l => l | None => [] end)
    as [|g rest];
    [apply (budget_weaken _ 0); [apply budget_ret | lia]|].
  apply (budget_weaken _ (1 + (0 + 0))); [|lia].
  apply budget_bind; [apply budget_enqueue_list|]. intros listed.
  apply budget_bind; [apply budget_lift|]. intros es. apply budget_ret.
Qed.

Lemma budget_top_tier (md : medium) (titles : list jsval) (base : media)
    (recs : list recommendation) :
  submits_at_most (top_tier up md titles base recs) 1.
Proof.
  unfold top_tier.
  destruct (List.length recs <? 5)%nat;
    [|apply (budget_weaken _ 0); [apply budget_ret | lia]].
  apply (budget_weaken _ (1 + (0 + 0))); [|lia].
  apply budget_bind; [apply budget_enqueue_list|]. intros listed.
  apply budget_bind; [apply budget_lift|]. intros es. apply budget_ret.
Qed.

Lemma budget_recommend_from (md : medium) (titles : list jsval)
    (genres exclude : jsval) (base : media) :
  submits_at_most (recommend_from md titles genres exclude base) 11.
Proof.
  unfold Server.recommend_from. apply (budget_weaken _ (9 + (1 + (1 + 0)))); [|lia].
  apply budget_bind; [apply budget_crowd_tier|]. intros crowd.
  apply budget_bind; [apply budget_genre_tier|]. intros g.
  apply budget_bind; [apply budget_top_tier|]. intros t. apply budget_ret.
Qed.

Lemma budget_manhwa_from (genres exclude : jsval) (manhwa : media)
    (baseTitle : jsval) :
  submits_at_most (manhwa_from genres exclude manhwa baseTitle) 2.
Proof.
  unfold Server.manhwa_from. apply (budget_weaken _ (1 + (0 + (1 + 0)))); [|lia].
  apply budget_bind; [apply budget_enqueue_list|]. intros resp.
  apply budget_bind.
  - destruct (0 <? List.length resp)%nat; [|apply budget_ret].
    apply (budget_weaken _ (0 + (0 + 0))); [|lia].
    apply budget_bind; [apply budget_lift|]. intros f1.
    apply budget_bind; [apply budget_lift|]. intros f2. apply budget_lift.
  - intros recs. apply budget_bind; [|intros t; apply budget_ret].
    destruct (List.length recs <? 5)%nat;
      [|apply (budget_weaken _ 0); [apply budget_ret | lia]].
    apply (budget_weaken _ (1 + (0 + 0))); [|lia].
    apply budget_bind; [apply budget_enqueue_list|]. intros listed.
    apply budget_bind; [apply budget_lift|]. intros es. apply budget_ret.
Qed.

Lemma budget_assemble (a : assembler) (titles : list jsval)
    (genres exclude : jsval) :
  submits_at_most (assemble a titles genres exclude)
    (match a with ForManhwa => 4 | _ => 13 end).
Proof.
  assert (Hg : forall md,
    submits_at_most
      (getRecommendations up numeric_string_positive md titles genres exclude)
      13).
  { intros md. unfold getRecommendations.
    apply (budget_weaken _ (1 + 12)); [|lia].
    apply budget_bind; [apply budget_enqueue_list|]. intros found.
    destruct found as [|base rest].
    - destruct (1 <? List.length titles)%nat.
      + apply (budget_weaken _ (1 + 11)); [|lia].
        apply budget_bind; [apply budget_enqueue_list|]. intros second.
        destruct second as [|base rest].
        * apply (budget_weaken _ 0); [apply budget_ret | lia].
        * apply budget_recommend_from.
      + apply (budget_weaken _ 0); [apply budget_ret | lia].
    - apply (budget_weaken _ 11); [apply budget_recommend_from | lia]. }
  destruct a; unfold Server.assemble, getAnimeRecommendations,
    getMangaRecommendations; try apply Hg.
  unfold getManhwaRecommendations. apply (budget_weaken _ (1 + 3)); [|lia].
  apply budget_bind; [apply budget_enqueue_list|]. intros found.
  destruct found as [|first rest].
  - destruct (1 <? List.length titles)%nat.
    + apply (budget_weaken _ (1 + 2)); [|lia].
      apply budget_bind; [apply budget_enqueue_list|]. intros second.
      destruct second as [|m rest].
      * apply (budget_weaken _ 0); [apply budget_ret | lia].
      * apply budget_manhwa_from.
    + apply (budget_weaken _ 0); [apply budget_ret | lia].
  - apply (budget_weaken _ 2); [apply budget_manhwa_from | lia].
Qed.

(** X7.  One exchange submits at most thirteen requests to the queue
    (two searches, the suggestions, eight details, the genre listing and
    the top listing), and at most four when the manhwa assembler is
    selected; with the queue's spacing this bounds the waiting time the
    exchange adds for everybody else. *)
Theorem request_budget (req_body : jsval) :
  List.length (snd (post_recommend req_body)) <= 13 /\
  (forall mediaType, property "mediaType" req_body = Ok mediaType ->
     selected mediaType = ForManhwa ->
     List.length (snd (post_recommend req_body)) <= 4).
Proof.
  assert (Hh : forall e : error,
    submits_at_most
      (ret (mkResponse 500 (ErrorDoc "Failed to get recommendations"
                              (Some (message e))))) 0).
  { intros e. apply budget_ret. }
  destruct (property_cases req_body) as [Hx|[field Hf]].
  - destruct (recommend_try_throws up numeric_string_positive req_body [] Hx)
      as [e He].
    rewrite post_recommend_eq, He. simpl. split; [lia|].
    intros mt Hp. destruct (Hx "mediaType") as [e' He']. congruence.
  - assert (Hb : forall n,
      (match selected (field "mediaType") with ForManhwa => 4 | _ => 13 end
       <= n) ->
      List.length (snd (post_recommend req_body)) <= n).
    { intros n Hn. unfold Server.post_recommend, recommend.
      rewrite (recommend_try_fields up numeric_string_positive _ _ Hf).
      match goal with |- List.length (snd (try_catch ?m ?h [])) <= _ =>
        assert (Hm : submits_at_most (try_catch m h) (n + 0)) end.
      { apply budget_try_catch; [|exact Hh].
        destruct (no_titles (field "titles")).
        - apply (budget_weaken _ 0); [apply budget_ret | lia].
        - apply (budget_weaken _ (0 + n)); [|lia].
          apply budget_bind; [apply budget_lift|]. intros kind.
          destruct (field "titles");
            try (apply (budget_weaken _ 0); [apply budget_throw | lia]).
          apply (budget_weaken _ (0 + n)); [|lia].
          apply budget_bind; [apply budget_lift|]. intros based_on.
          eapply budget_weaken; [apply budget_assemble | exact Hn]. }
      specialize (Hm []). simpl in Hm. lia. }
    split.
    + apply Hb. destruct (selected (field "mediaType")); lia.
    + intros mt Hp Hs. rewrite Hf in Hp. injection Hp as Hp.
      apply Hb. rewrite Hp, Hs. lia.
Qed.

Lemma mapM_total {A B : Type} (f : A -> M B) (l : list A) :
  (forall x log, exists y log', f x log = (Ok y, log')) ->
  forall log, exists ys log', mapM f l log = (Ok ys, log').
Proof.
  intros Hf. induction l as [|x r IH]; intros log; cbn [mapM].
  - exists [], log. reflexivity.
  - unfold bind at 1. destruct (Hf x log) as [y [mid Hy]]. rewrite Hy.
    unfold bind at 1. destruct (IH mid) as [ys [mid' Hys]]. rewrite Hys.
    exists (y :: ys), mid'. reflexivity.
Qed.

Lemma mapM_in {A B : Type} (f : A -> M B) (l : list A) :
  forall log log' ys,
    mapM f l log = (Ok ys, log') ->
    forall y, In y ys ->
    exists x before after, In x l /\ f x before = (Ok y, after).
Proof.
  induction l as [|x r IH]; intros log log' ys H y Hy; cbn [mapM] in H.
  - apply ret_ok in H. destruct H as [<- _]. contradiction.
  - apply bind_ok in H. destruct H as [y0 [mid [H0 H]]].
    apply bind_ok in H. destruct H as [ys0 [mid' [H1 H]]].
    apply ret_ok in H. destruct H as [<- _].
    destruct Hy as [<-|Hy].
    + exists x, log, mid. split; [left; reflexivity | exact H0].
    + destruct (IH _ _ _ H1 y Hy) as [x' [b [a [Hin Hf]]]].
      exists x', b, a. split; [right; exact Hin | exact Hf].
Qed.

Lemma in_non_null {A : Type} (l : list (option A)) (a : A) :
  In a (non_null l) <-> In (Some a) l.
Proof.
  unfold non_null. rewrite in_flat_map. split.
  - intros [x [Hx Ha]]. destruct x as [b|]; simpl in Ha; [|contradiction].
    destruct Ha as [<-|[]]. exact Hx.
  - intros H. exists (Some a). split; [exact H | left; reflexivity].
Qed.

(** What the detail callback answers, by cases on the request. *)
Lemma crowd_item_eq (md : medium) (titles : list jsval)
    (genres exclude : jsval) (r : suggestion) (log : list string) :
  crowd_item md titles genres exclude r log
  = (Ok match get_item up (List.length log) (item_url md (entry_id r)) with
        | Ok m =>
            match crowd_entry numeric_string_positive md titles genres
                    exclude r m with
            | Ok o => o
            | Throw _ => None
            end
        | Throw _ => None
        end,
     (log ++ [item_url md (entry_id r)])%list).
Proof.
  unfold Server.crowd_item, try_catch, bind, enqueue_item, lift, ret.
  destruct (get_item up (List.length log) (item_url md (entry_id r)))
    as [m|e]; [|reflexivity].
  destruct (crowd_entry numeric_string_positive md titles genres exclude r m)
    as [o|e]; reflexivity.
Qed.

(** X8.  A detail lookup that fails, or whose answer cannot be turned
    into a record, only drops that one suggestion: the callback never
    throws and submits exactly one request, and once the suggestions have
    arrived the first tier always yields a list. *)
Theorem detail_failures_are_skipped (md : medium) (titles : list jsval)
    (genres exclude : jsval) :
  (forall r log, exists o,
      crowd_item md titles genres exclude r log
      = (Ok o, (log ++ [item_url md (entry_id r)])%list) /\
      (forall e, get_item up (List.length log) (item_url md (entry_id r))
                 = Throw e -> o = None)) /\
  (forall id log suggested,
      get_suggestions up (List.length log) (suggestions_url md id)
      = Ok suggested ->
      exists recs log',
        crowd_tier md titles genres exclude id log = (Ok recs, log')).
Proof.
  split.
  - intros r log. eexists. split; [apply crowd_item_eq|].
    intros e He. rewrite He. reflexivity.
  - intros id log suggested Hs.
    unfold Server.crowd_tier, bind at 1, enqueue_suggestions. rewrite Hs.
    destruct (0 <? List.length suggested)%nat; [|unfold ret; eauto].
    unfold bind.
    destruct (mapM_total (crowd_item md titles genres exclude)
                (firstn 8 suggested)) with
      (log := (log ++ [suggestions_url md id])%list) as [ys [mid Hys]].
    { intros x l. rewrite crowd_item_eq. eauto. }
    rewrite Hys. unfold ret. eauto.
Qed.

Lemma unusable_filter_throws (v : jsval) :
  unusable_filter v -> lower_all v = Throw (TypeError "map is not a function").
Proof.
  intros [_ Hn]. destruct v; try reflexivity. exfalso. apply (Hn l).
  reflexivity.
Qed.

Lemma nonempty_string_unusable (s : string) :
  s <> "" -> unusable_filter (JStr s).
Proof.
  intros Hs. split; [|discriminate]. destruct s as [|c s]; [congruence|].
  reflexivity.
Qed.

Lemma crowd_entry_unusable (md : medium) (titles : list jsval)
    (genres exclude : jsval) (r : suggestion) (m : media)
    (e : recommendation) :
  unusable_filter genres \/ unusable_filter exclude ->
  crowd_entry numeric_string_positive md titles genres exclude r m
  <> Ok (Some e).
Proof.
  intros Hu H. apply crowd_entry_filtered in H. destruct H as [Hg Hx].
  destruct Hu as [Hu|Hu]; pose proof (unusable_filter_throws _ Hu) as Ht;
    destruct Hu as [Hgiven _].
  - destruct (Hg Hgiven) as [listed [Hl _]]. congruence.
  - destruct (Hx Hgiven) as [listed [Hl _]]. congruence.
Qed.

Lemma first_tier_unusable (md : medium)
    (titles : list jsval) (genres exclude : jsval) (id : Z)
    (log log' : list string) (recs : list recommendation) :
  unusable_filter genres \/ unusable_filter exclude ->
  crowd_tier md titles genres exclude id log = (Ok recs, log') ->
  recs = [].
Proof.
  intros Hu H. unfold Server.crowd_tier in H.
  apply bind_ok in H. destruct H as [suggested [mid [_ H]]].
  destruct (0 <? List.length suggested)%nat;
    [|apply ret_ok in H; destruct H as [<- _]; reflexivity].
  apply bind_ok in H. destruct H as [found [mid' [Hm H]]].
  apply ret_ok in H. destruct H as [<- _].
  destruct (non_null found) as [|e rest] eqn:Hn; [reflexivity|exfalso].
  assert (He : In (Some e) found).
  { apply in_non_null. rewrite Hn. left. reflexivity. }
  destruct (mapM_in _ _ _ _ _ Hm _ He) as [r [b [a [_ Hf]]]].
  rewrite crowd_item_eq in Hf. injection Hf as Hf _.
  destruct (get_item up (List.length b) (item_url md (entry_id r)))
    as [m|err]; [|discriminate].
  destruct (crowd_entry numeric_string_positive md titles genres exclude r m)
    as [o|err] eqn:Hc; [|discriminate].
  subst o. apply (crowd_entry_unusable _ _ _ _ _ _ _ Hu Hc).
Qed.

(** X9.  A [genres] or [exclude] field that is given but is not an array
    (a non-empty string, as the page's form sends it) does not filter:
    [.map] throws inside the detail callback, every suggestion becomes
    [null], and the first tier contributes nothing. *)
Theorem non_array_filter_empties_first_tier (md : medium)
    (titles : list jsval) (genres exclude : jsval) (id : Z)
    (log log' : list string) (recs : list recommendation) :
  unusable_filter genres \/ unusable_filter exclude ->
  crowd_tier md titles genres exclude id log = (Ok recs, log') ->
  recs = [].
Proof. apply first_tier_unusable. Qed.

(** X10.  The manhwa assembler reads the same fields outside any [try]:
    with such a field and a non-empty listing of popular manhwa it
    throws, after that one request, and the exchange ends in the 500 of
    the handler. *)
Theorem non_array_filter_fails_manhwa (genres exclude : jsval)
    (manhwa : media) (baseTitle : jsval) (log : list string)
    (first : media) (rest : list media) :
  unusable_filter genres \/ unusable_filter exclude ->
  get_list up (List.length log) manhwa_url = Ok (first :: rest) ->
  exists e,
    manhwa_from genres exclude manhwa baseTitle log
    = (Throw e, (log ++ [manhwa_url])%list).
Proof.
  intros Hu Hl. unfold Server.manhwa_from, bind at 1, enqueue_list.
  rewrite Hl. cbn [List.length Nat.ltb Nat.leb].
  unfold bind at 1. unfold bind at 1. unfold lift at 1.
  destruct Hu as [Hu|Hu]; pose proof (unusable_filter_throws _ Hu) as Ht;
    destruct Hu as [Hgiven _].
  - rewrite Hgiven, Ht. cbn [rbind]. eauto.
  - match goal with |- context [if filter_given _ genres then ?a else ?b] =>
      destruct (if filter_given numeric_string_positive genres
                then a else b) as [kept|e] end; [|eauto].
    unfold bind at 1. unfold lift at 1. rewrite Hgiven, Ht. cbn [rbind].
    eauto.
Qed.

(** X11.  Only the first two titles are ever consulted: two requests
    that agree on them get the same treatment, whatever follows. *)
Theorem later_titles_are_ignored (a : assembler) (t0 t1 : jsval)
    (more more' : list jsval) (genres exclude : jsval) :
  assemble a (t0 :: t1 :: more) genres exclude
  = assemble a (t0 :: t1 :: more') genres exclude.
Proof. destruct a; reflexivity. Qed.

(** X12.  With five or more entries from the first tier the fallback
    tiers submit nothing: the answer is the first five of them and the
    requests are those of the first tier. *)
Theorem full_first_tier_needs_no_fallback (md : medium)
    (titles : list jsval) (genres exclude : jsval) (base : media)
    (log log' : list string) (crowd : list recommendation) :
  crowd_tier md titles genres exclude (mal_id base) log = (Ok crowd, log') ->
  5 <= List.length crowd ->
  recommend_from md titles genres exclude base log
  = (Ok (mkResponse 200
           (RecommendationsDoc (firstn 5 crowd) (title base) (segment md))),
     log').
Proof.
  intros Hc Hlen. unfold Server.recommend_from, bind at 1. rewrite Hc.
  assert (Hlt : (List.length crowd <? 5)%nat = false)
    by (apply Nat.ltb_ge; exact Hlen).
  unfold bind, genre_tier, top_tier. rewrite Hlt. unfold ret.
  rewrite Hlt. reflexivity.
Qed.

(** X13.  The fallback tiers are not protected: when the first tier
    found fewer than five entries and the genre listing fails, the
    failure is thrown (to become the 500 of the handler) and the entries
    already collected are lost. *)
Theorem fallback_failure_is_fatal (md : medium) (titles : list jsval)
    (genres exclude : jsval) (base : media) (log log' : list string)
    (crowd : list recommendation) (g : genre) (others : list genre)
    (e : error) :
  crowd_tier md titles genres exclude (mal_id base) log = (Ok crowd, log') ->
  List.length crowd < 5 ->
  media_genres base = Some (g :: others) ->
  get_list up (List.length log') (genre_url md (genre_id g)) = Throw e ->
  recommend_from md titles genres exclude base log
  = (Throw e, (log' ++ [genre_url md (genre_id g)])%list).
Proof.
  intros Hc Hlen Hg He. unfold Server.recommend_from, bind at 1. rewrite Hc.
  assert (Hlt : (List.length crowd <? 5)%nat = true)
    by (apply Nat.ltb_lt; exact Hlen).
  unfold bind at 1. unfold genre_tier. rewrite Hlt, Hg.
  unfold bind at 1, enqueue_list. rewrite He. reflexivity.
Qed.

Lemma rmap_in {A B : Type} (f : A -> result B) (l : list A) :
  forall ys, rmap f l = Ok ys ->
  forall y, In y ys -> exists x, In x l /\ f x = Ok y.
Proof.
  induction l as [|x r IH]; intros ys H y Hy; cbn [rmap] in H.
  - injection H as <-. contradiction.
  - apply rbind_ok in H. destruct H as [y0 [H0 H]].
    apply rbind_ok in H. destruct H as [ys0 [H1 H]].
    injection H as <-. destruct Hy as [<-|Hy].
    + exists x. split; [left; reflexivity | exact H0].
    + destruct (IH _ H1 y Hy) as [x' [Hin Hf]].
      exists x'. split; [right; exact Hin | exact Hf].
Qed.

Lemma listing_entry_similar (type_of : media -> string) (similar : jsval)
    (why : string) (m : media) (e : recommendation) :
  listing_entry type_of similar why m = Ok e -> similarTo e = similar.
Proof.
  unfold listing_entry. intros H.
  apply rbind_ok in H. destruct H as [names [_ H]].
  injection H as <-. reflexivity.
Qed.

Lemma listing_similar (type_of : media -> string) (similar : jsval)
    (why : string) (l : list media) (es : list recommendation) :
  rmap (listing_entry type_of similar why) l = Ok es ->
  Forall (fun e => similarTo e = similar) es.
Proof.
  intros H. apply Forall_forall. intros e He.
  destruct (rmap_in _ _ _ H e He) as [m [_ Hm]].
  apply (listing_entry_similar _ _ _ _ _ Hm).
Qed.

Lemma crowd_entry_similar (md : medium) (titles : list jsval)
    (genres exclude : jsval) (r : suggestion) (m : media)
    (e : recommendation) :
  crowd_entry numeric_string_positive md titles genres exclude r m
  = Ok (Some e) ->
  similarTo e = index titles 0.
Proof.
  unfold crowd_entry. intros H.
  apply rbind_ok in H. destruct H as [wanted [_ H]].
  destruct wanted; cbn [negb] in H; [|discriminate].
  apply rbind_ok in H. destruct H as [excluded [_ H]].
  destruct excluded; [discriminate|].
  apply rbind_ok in H. destruct H as [by_whom [_ H]].
  apply rbind_ok in H. destruct H as [names [_ H]].
  injection H as <-. reflexivity.
Qed.

Lemma crowd_tier_similar (md : medium) (titles : list jsval)
    (genres exclude : jsval) (id : Z) (log log' : list string)
    (recs : list recommendation) :
  crowd_tier md titles genres exclude id log = (Ok recs, log') ->
  Forall (fun e => similarTo e = index titles 0) recs.
Proof.
  intros H. unfold Server.crowd_tier in H.
  apply bind_ok in H. destruct H as [suggested [mid [_ H]]].
  destruct (0 <? List.length suggested)%nat;
    [|apply ret_ok in H; destruct H as [<- _]; constructor].
  apply bind_ok in H. destruct H as [found [mid' [Hm H]]].
  apply ret_ok in H. destruct H as [<- _].
  apply Forall_forall. intros e He. apply in_non_null in He.
  destruct (mapM_in _ _ _ _ _ Hm _ He) as [r [b [a [_ Hf]]]].
  rewrite crowd_item_eq in Hf. injection Hf as Hf _.
  destruct (get_item up (List.length b) (item_url md (entry_id r)))
    as [m|err]; [|discriminate].
  destruct (crowd_entry numeric_string_positive md titles genres exclude r m)
    as [o|err] eqn:Hc; [|discriminate].
  subst o. apply (crowd_entry_similar _ _ _ _ _ _ _ Hc).
Qed.

Lemma recommend_from_similar (md : medium) (titles : list jsval)
    (genres exclude : jsval) (base : media) (log log' : list string)
    (r : response) (recs : list recommendation) (bt mt : string) :
  recommend_from md titles genres exclude base log = (Ok r, log') ->
  body r = RecommendationsDoc recs bt mt ->
  Forall (fun e => similarTo e = index titles 0) recs.
Proof.
  unfold Server.recommend_from. intros H Hb.
  apply bind_ok in H. destruct H as [crowd [l1 [Hc H]]].
  apply bind_ok in H. destruct H as [g [l2 [Hg H]]].
  apply bind_ok in H. destruct H as [t [l3 [Ht H]]].
  apply ret_ok in H. destruct H as [<- _]. cbn [body] in Hb.
  assert (Hr : recs = firstn 5 t) by congruence. subst recs.
  apply crowd_tier_similar in Hc.
  assert (Fg : Forall (fun e => similarTo e = index titles 0) g).
  { unfold genre_tier in Hg.
    destruct (List.length crowd <? 5)%nat;
      [|apply ret_ok in Hg; destruct Hg as [<- _]; exact Hc].
    destruct (match media_genres base with Some l => l | None => [] end)
      as [|g0 rest];
      [apply ret_ok in Hg; destruct Hg as [<- _]; exact Hc|].
    apply bind_ok in Hg. destruct Hg as [listed [m1 [_ Hg]]].
    apply bind_ok in Hg. destruct Hg as [es [m2 [He Hg]]].
    apply ret_ok in Hg. destruct Hg as [<- _].
    unfold lift in He. injection He as He _.
    apply Forall_app. split; [exact Hc|]. apply (listing_similar _ _ _ _ _ He). }
  assert (Ft : Forall (fun e => similarTo e = index titles 0) t).
  { unfold top_tier in Ht.
    destruct (List.length g <? 5)%nat;
      [|apply ret_ok in Ht; destruct Ht as [<- _]; exact Fg].
    apply bind_ok in Ht. destruct Ht as [listed [m1 [_ Ht]]].
    apply bind_ok in Ht. destruct Ht as [es [m2 [He Ht]]].
    apply ret_ok in Ht. destruct Ht as [<- _].
    unfold lift in He. injection He as He _.
    apply Forall_app. split; [exact Fg|]. apply (listing_similar _ _ _ _ _ He). }
  rewrite <- (firstn_skipn 5 t) in Ft. apply Forall_app in Ft.
  destruct Ft as [Ft _]. exact Ft.
Qed.

(** X14.  In the manga and anime answers every recommendation is said
    to be similar to the first title of the request, also when the base
    entry was found through the second title. *)
Theorem similar_to_first_title (md : medium) (titles : list jsval)
    (genres exclude : jsval) (log log' : list string) (r : response)
    (recs : list recommendation) (bt mt : string) :
  getRecommendations up numeric_string_positive md titles genres exclude log
  = (Ok r, log') ->
  body r = RecommendationsDoc recs bt mt ->
  Forall (fun e => similarTo e = index titles 0) recs.
Proof.
  unfold getRecommendations. intros H Hb.
  apply bind_ok in H. destruct H as [found [l1 [_ H]]].
  destruct found as [|base rest].
  - destruct (1 <? List.length titles)%nat.
    + apply bind_ok in H. destruct H as [second [l2 [_ H]]].
      destruct second as [|base rest].
      * apply ret_ok in H. destruct H as [<- _]. discriminate.
      * eapply recommend_from_similar; eauto.
    + apply ret_ok in H. destruct H as [<- _]. discriminate.
  - eapply recommend_from_similar; eauto.
Qed.

End Extras.

Lemma non_array_filter_empties_first_tier_witness :
  unusable_filter never_positive (JStr "romance") /\
  match fst (crowd_tier (demo_catalogue Manga) never_positive Manga
               [JStr "Naruto"] (JStr "romance") JUndefined 20 []) with
  | Ok recs => recs = []
  | Throw _ => False
  end.
Proof.
  assert (Hu : unusable_filter never_positive (JStr "romance")).
  { apply nonempty_string_unusable. discriminate. }
  split; [exact Hu|].
  destruct (crowd_tier (demo_catalogue Manga) never_positive Manga
              [JStr "Naruto"] (JStr "romance") JUndefined 20 [])
    as [[recs|e] log] eqn:Hc; cbn [fst].
  - apply (non_array_filter_empties_first_tier (demo_catalogue Manga)
             never_positive Manga [JStr "Naruto"] (JStr "romance") JUndefined
             20 [] log recs (or_introl Hu) Hc).
  - vm_compute in Hc. discriminate.
Defined.

Lemma non_array_filter_fails_manhwa_witness :
  exists e,
    manhwa_from generous_catalogue never_positive JUndefined (JStr "action")
      (entry 20 "Naruto" [genre_action]) (JStr "Naruto") []
    = (Throw e, [manhwa_url]).
Proof.
  apply (non_array_filter_fails_manhwa generous_catalogue never_positive
           JUndefined (JStr "action") (entry 20 "Naruto" [genre_action])
           (JStr "Naruto") [] (entry 20 "Naruto" [genre_action]) []).
  - right. apply nonempty_string_unusable. discriminate.
  - reflexivity.
Defined.

Lemma generous_first_tier :
  crowd_tier generous_catalogue never_positive Manga [JStr "Naruto"]
    JUndefined JUndefined 20 []
  = (Ok (map (fun _ =>
            demo_recommendation Manga "Bleach"
              "Recommended by 3 MyAnimeList users who also enjoyed Naruto"
              ["Action"]) [1; 2; 3; 4; 5; 6]),
     suggestions_url Manga 20
       :: map (item_url Manga) [11; 12; 13; 14; 15; 16]%Z).
Proof. vm_compute. reflexivity. Qed.

Lemma full_first_tier_needs_no_fallback_witness :
  recommend_from generous_catalogue never_positive Manga [JStr "Naruto"]
    JUndefined JUndefined (entry 20 "Naruto" [genre_action]) []
  = (Ok (mkResponse 200
           (RecommendationsDoc
              (firstn 5 (map (fun _ =>
                 demo_recommendation Manga "Bleach"
                   "Recommended by 3 MyAnimeList users who also enjoyed Naruto"
                   ["Action"]) [1; 2; 3; 4; 5; 6]))
              (title (entry 20 "Naruto" [genre_action])) (segment Manga))),
     suggestions_url Manga 20
       :: map (item_url Manga) [11; 12; 13; 14; 15; 16]%Z).
Proof.
  apply (full_first_tier_needs_no_fallback generous_catalogue never_positive).
  - exact generous_first_tier.
  - simpl. lia.
Defined.

Lemma fallback_failure_is_fatal_witness :
  recommend_from genre_down_catalogue never_positive Manga [JStr "Naruto"]
    JUndefined JUndefined (entry 20 "Naruto" [genre_action]) []
  = (Throw (RequestError "Request failed with status code 429"),
     [suggestions_url Manga 20; genre_url Manga 1]).
Proof.
  apply (fallback_failure_is_fatal genre_down_catalogue never_positive Manga
           [JStr "Naruto"] JUndefined JUndefined
           (entry 20 "Naruto" [genre_action]) [] [suggestions_url Manga 20]
           [] genre_action []).
  - reflexivity.
  - simpl. lia.
  - reflexivity.
  - reflexivity.
Defined.

Lemma second_title_answer :
  getRecommendations (demo_catalogue Manga) never_positive Manga
    [JStr "Nana"; JStr "Naruto"] JUndefined JUndefined []
  = (Ok (mkResponse 200
           (RecommendationsDoc
              (map (fun e : recommendation =>
                 {| rec_title := rec_title e; creator := creator e;
                    rec_type := rec_type e; rec_genres := rec_genres e;
                    description := description e; similarTo := JStr "Nana";
                    whyRecommended := whyRecommended e; image := image e;
                    rec_url := rec_url e; rec_score := rec_score e;
                    rec_count := rec_count e |})
                 [demo_recommendation Manga "Bleach"
                    "Recommended by 40 MyAnimeList users who also enjoyed Nana"
                    ["Action"];
                  demo_recommendation Manga "Kimi ni Todoke"
                    "Recommended by 7 MyAnimeList users who also enjoyed Nana"
                    ["Romance"];
                  demo_recommendation Manga "Bleach"
                    "Shares the Action genre with Nana" ["Action"];
                  demo_recommendation Manga "One Piece"
                    "Shares the Action genre with Nana" ["Action"];
                  demo_recommendation Manga "Berserk"
                    "This is a highly rated manga on MyAnimeList" ["Action"]])
              "Naruto" "manga")),
     [search_url Manga (JStr "Nana") "1"; search_url Manga (JStr "Naruto") "1";
      suggestions_url Manga 20; item_url Manga 11; item_url Manga 30;
      genre_url Manga 1; top_url Manga "5"]).
Proof. vm_compute. reflexivity. Qed.

Lemma similar_to_first_title_witness :
  Forall (fun e => similarTo e = index [JStr "Nana"; JStr "Naruto"] 0)
    (map (fun e : recommendation =>
       {| rec_title := rec_title e; creator := creator e;
          rec_type := rec_type e; rec_genres := rec_genres e;
          description := description e; similarTo := JStr "Nana";
          whyRecommended := whyRecommended e; image := image e;
          rec_url := rec_url e; rec_score := rec_score e;
          rec_count := rec_count e |})
       [demo_recommendation Manga "Bleach"
          "Recommended by 40 MyAnimeList users who also enjoyed Nana"
          ["Action"];
        demo_recommendation Manga "Kimi ni Todoke"
          "Recommended by 7 MyAnimeList users who also enjoyed Nana"
          ["Romance"];
        demo_recommendation Manga "Bleach"
          "Shares the Action genre with Nana" ["Action"];
        demo_recommendation Manga "One Piece"
          "Shares the Action genre with Nana" ["Action"];
        demo_recommendation Manga "Berserk"
          "This is a highly rated manga on MyAnimeList" ["Action"]]).
Proof.
  eapply (similar_to_first_title (demo_catalogue Manga) never_positive).
  - exact second_title_answer.
  - reflexivity.
Defined.

End ServerExtras.

(** * Properties of the generative service, its route and the page *)

Module GenerativeFacts.
Import Server Generative.

Local Open Scope string_scope.

Lemma prefix_empty (b : string) : String.prefix "" b = true.
Proof. destruct b; reflexivity. Qed.

Lemma prefix_refl_app (a b : string) : String.prefix a (a ++ b) = true.
Proof.
  induction a as [|c a IH]; [apply prefix_empty|]. simpl.
  destruct (ascii_dec c c); [exact IH | congruence].
Qed.

Lemma drop_app (a b : string) : drop (String.length a) (a ++ b) = b.
Proof.
  induction a as [|c a IH]; simpl; [destruct b; reflexivity | exact IH].
Qed.

(** A prefix test that fits inside the first part of a concatenation
    does not depend on the second part. *)
Lemma prefix_app_long (a x y : string) :
  String.length a <= String.length x ->
  String.prefix a (x ++ y) = String.prefix a x.
Proof.
  revert x. induction a as [|c a IH]; intros x Hl.
  - rewrite !prefix_empty. reflexivity.
  - destruct x as [|d x]; simpl in Hl; [lia|]. simpl.
    destruct (ascii_dec c d); [apply IH; lia | reflexivity].
Qed.

Lemma append_assoc (a b c : string) : (a ++ b) ++ c = a ++ (b ++ c).
Proof.
  induction a as [|x a IH]; simpl; [reflexivity | rewrite IH; reflexivity].
Qed.

Lemma length_append (a b : string) :
  String.length (a ++ b) = String.length a + String.length b.
Proof.
  induction a as [|x a IH]; simpl; [reflexivity | rewrite IH; reflexivity].
Qed.

Lemma after_first_unfold (pat s : string) :
  after_first pat s
  = if String.prefix pat s then Some (drop (String.length pat) s)
    else match s with
         | EmptyString => None
         | String _ r => after_first pat r
         end.
Proof. destruct s; reflexivity. Qed.

Lemma before_first_unfold (pat s : string) :
  before_first pat s
  = if String.prefix pat s then Some EmptyString
    else match s with
         | EmptyString => None
         | String c r =>
             match before_first pat r with
             | Some p => Some (String c p)
             | None => None
             end
         end.
Proof. destruct s; reflexivity. Qed.

Lemma includes_unfold (s pat : string) :
  includes s pat
  = if String.prefix pat s then true
    else match s with
         | EmptyString => false
         | String _ r => includes r pat
         end.
Proof. destruct s; reflexivity. Qed.

(** The text [pre ++ (p ++ String c "") ++ rest], cut one character
    before the end of the pattern. *)
Lemma cut_before_last (p : string) (c : ascii) (pre rest : string) :
  pre ++ (p ++ String c "") ++ rest = (pre ++ p) ++ String c rest.
Proof. rewrite !append_assoc. reflexivity. Qed.

(** When the pattern [p ++ String c ""] does not occur in [pre ++ p], its
    first occurrence in [pre ++ (p ++ String c "") ++ rest] is the one
    written out. *)
Lemma first_occurrence (p : string) (c : ascii) (pre rest : string) (d : ascii) :
  includes (String d pre ++ p) (p ++ String c "") = false ->
  String.prefix (p ++ String c "") (String d pre ++ (p ++ String c "") ++ rest)
  = false /\
  includes (pre ++ p) (p ++ String c "") = false.
Proof.
  intros H. rewrite includes_unfold in H.
  destruct (String.prefix (p ++ String c "") (String d pre ++ p)) eqn:Hp;
    [discriminate|].
  split; [|exact H].
  rewrite cut_before_last, prefix_app_long; [exact Hp|].
  rewrite !length_append. simpl. lia.
Qed.

Lemma after_first_found (p : string) (c : ascii) (pre rest : string) :
  includes (pre ++ p) (p ++ String c "") = false ->
  after_first (p ++ String c "") (pre ++ (p ++ String c "") ++ rest)
  = Some rest.
Proof.
  induction pre as [|d pre IH]; intros H.
  - cbn [append]. rewrite after_first_unfold, prefix_refl_app, drop_app.
    reflexivity.
  - destruct (first_occurrence p c pre rest d H) as [Hp Hi].
    rewrite after_first_unfold, Hp. cbn [append]. apply IH. exact Hi.
Qed.

Lemma before_first_found (p : string) (c : ascii) (pre rest : string) :
  includes (pre ++ p) (p ++ String c "") = false ->
  before_first (p ++ String c "") (pre ++ (p ++ String c "") ++ rest)
  = Some pre.
Proof.
  induction pre as [|d pre IH]; intros H.
  - cbn [append]. rewrite before_first_unfold, prefix_refl_app. reflexivity.
  - destruct (first_occurrence p c pre rest d H) as [Hp Hi].
    rewrite before_first_unfold, Hp. cbn [append]. rewrite (IH Hi).
    reflexivity.
Qed.

Lemma after_first_none (pat s : string) :
  includes s pat = false -> after_first pat s = None.
Proof.
  induction s as [|c s IH]; intros H; rewrite includes_unfold in H;
    rewrite after_first_unfold;
    destruct (String.prefix pat _); try discriminate; auto.
Qed.

(** X15.  A fenced answer is unwrapped: when the answer of the model
    holds a [```json] block, with no such opening fence earlier and no
    closing fence inside the block, exactly the text between the two
    fences is what gets parsed, whatever surrounds the block. *)
Theorem json_block_is_unwrapped (pre inner post : string) :
  includes (pre ++ "```json") json_fence = false ->
  includes (inner ++ newline ++ "``") closing_fence = false ->
  json_text (pre ++ json_fence ++ inner ++ closing_fence ++ post) = inner.
Proof.
  intros Hpre Hin. unfold json_text, fenced.
  change json_fence with ("```json" ++ String (ascii_of_nat 10) "") in *.
  rewrite (after_first_found "```json" _ pre _ Hpre).
  change closing_fence
    with ((String (ascii_of_nat 10) "``") ++ String "`" "") in *.
  change (newline ++ "``") with (String (ascii_of_nat 10) "``") in Hin.
  rewrite (before_first_found _ _ inner post Hin). reflexivity.
Qed.

Lemma prefix_weaken (a b s : string) :
  String.prefix (a ++ b) s = true -> String.prefix a s = true.
Proof.
  revert s. induction a as [|c a IH]; intros s H; [apply prefix_empty|].
  destruct s as [|d s]; simpl in *; [discriminate|].
  destruct (ascii_dec c d); [apply IH; exact H | discriminate].
Qed.

Lemma includes_longer (s a b : string) :
  includes s a = false -> includes s (a ++ b) = false.
Proof.
  induction s as [|c s IH]; intros H; rewrite includes_unfold in H;
    rewrite includes_unfold.
  - destruct (String.prefix a "") eqn:Ha; [discriminate|].
    destruct (String.prefix (a ++ b) "") eqn:Hab; [|reflexivity].
    apply prefix_weaken in Hab. congruence.
  - destruct (String.prefix a (String c s)) eqn:Ha; [discriminate|].
    destruct (String.prefix (a ++ b) (String c s)) eqn:Hab; [|auto].
    apply prefix_weaken in Hab. congruence.
Qed.

(** X16.  A block fenced with bare [```] is unwrapped in the same way
    when the answer holds no [```json] fence at all. *)
Theorem plain_block_is_unwrapped (pre inner post : string) :
  includes (pre ++ plain_fence ++ inner ++ closing_fence ++ post) json_fence
  = false ->
  includes (pre ++ "```") plain_fence = false ->
  includes (inner ++ newline ++ "``") closing_fence = false ->
  json_text (pre ++ plain_fence ++ inner ++ closing_fence ++ post) = inner.
Proof.
  intros Hj Hpre Hin. unfold json_text, fenced.
  rewrite (after_first_none _ _ Hj).
  change plain_fence with ("```" ++ String (ascii_of_nat 10) "") in *.
  rewrite (after_first_found "```" _ pre _ Hpre).
  change closing_fence
    with ((String (ascii_of_nat 10) "``") ++ String "`" "") in *.
  change (newline ++ "``") with (String (ascii_of_nat 10) "``") in Hin.
  rewrite (before_first_found _ _ inner post Hin). reflexivity.
Qed.

(** X17.  An answer without any [```] is parsed as it is. *)
Theorem unfenced_text_is_parsed_whole (text : string) :
  includes text "```" = false -> json_text text = text.
Proof.
  intros H. unfold json_text, fenced.
  rewrite (after_first_none json_fence text).
  - rewrite (after_first_none plain_fence text); [reflexivity|].
    apply (includes_longer text "```" newline H).
  - apply (includes_longer text "```" ("json" ++ newline) H).
Qed.

Section Route.

Variable generate : string -> string + string.
Variable JSON_parse : string -> option jsval.

Local Abbreviation recommend_route := (recommend_route generate JSON_parse).

(** X18.  The outcomes of the generative route: a 400 document, without
    the model being consulted, exactly when [titles] is missing or empty;
    a 200 answer that is exactly the value parsed from the unwrapped text
    the model gives for the prompt; and otherwise the failure is passed
    to [next]: the error of reading the body, the error of a piece of
    the prompt that cannot be converted to a string, the model's own
    message, or the fixed message that replaces the parser's error. *)
Theorem route_outcomes (req_body : jsval) :
  match recommend_route req_body with
  | Json code v =>
      exists titles preferences genres exclude,
        property "titles" req_body = Ok titles /\
        property "preferences" req_body = Ok preferences /\
        property "genres" req_body = Ok genres /\
        property "exclude" req_body = Ok exclude /\
        ((code = 400 /\ no_titles titles = true /\
          v = JObj [("success", JBool false);
                    ("error", JStr "No manga/manhwa titles provided")]) \/
         (code = 200 /\ no_titles titles = false /\
          exists asked text,
            prompt titles preferences genres exclude = Ok asked /\
            generate asked = inl text /\
            JSON_parse (json_text text) = Some v))
  | Next msg =>
      (exists e, property "titles" req_body = Throw e /\ msg = message e) \/
      (exists titles preferences genres exclude,
        property "titles" req_body = Ok titles /\
        property "preferences" req_body = Ok preferences /\
        property "genres" req_body = Ok genres /\
        property "exclude" req_body = Ok exclude /\
        no_titles titles = false /\
        ((exists e,
            prompt titles preferences genres exclude = Throw e /\
            msg = message e) \/
         (exists asked,
            prompt titles preferences genres exclude = Ok asked /\
            (generate asked = inr msg \/
             exists text,
               generate asked = inl text /\
               JSON_parse (json_text text) = None /\
               msg = "Failed to generate proper recommendations"))))
  end.
Proof.
  destruct (ServerFacts.property_cases req_body) as [Hx|[field Hf]].
  - destruct (Hx "titles") as [e He]. unfold Generative.recommend_route.
    rewrite He. left. eauto.
  - unfold Generative.recommend_route. rewrite !Hf.
    destruct (no_titles (field "titles")) eqn:Hn.
    + exists (field "titles"), (field "preferences"), (field "genres"),
        (field "exclude"). repeat split. left. auto.
    + unfold getRecommendations.
      destruct (prompt _ _ _ _) as [asked|e] eqn:Hq.
      * destruct (generate asked) as [text|msg] eqn:Hg.
        -- destruct (JSON_parse (json_text text)) as [v|] eqn:Hp.
           ++ exists (field "titles"), (field "preferences"),
                (field "genres"), (field "exclude"). repeat split.
              right. split; [reflexivity|]. split; [exact Hn|].
              exists asked, text. auto.
           ++ right. exists (field "titles"), (field "preferences"),
                (field "genres"), (field "exclude"). repeat split; auto.
              right. exists asked. split; [exact Hq|]. right. eauto.
        -- right. exists (field "titles"), (field "preferences"),
             (field "genres"), (field "exclude"). repeat split; auto.
           right. exists asked. auto.
      * right. exists (field "titles"), (field "preferences"),
          (field "genres"), (field "exclude"). repeat split; auto.
        left. exists e. auto.
Qed.

(** A preference that is an object with a property of its own named
    [toString] cannot be written into the prompt: the route passes the
    error on, whatever the model would have said. *)
Lemma unprintable_preference_is_passed_on :
  recommend_route
    (JObj [("titles", JArr [JStr "Naruto"]);
           ("preferences", JObj [("toString", JNum 1)])])
  = Next "cannot convert object to primitive value".
Proof. reflexivity. Qed.

End Route.

Lemma json_block_is_unwrapped_witness :
  json_text (("Here you go:" ++ newline) ++ json_fence ++ "{}"
               ++ closing_fence ++ (newline ++ "Enjoy!")) = "{}".
Proof.
  apply (json_block_is_unwrapped ("Here you go:" ++ newline) "{}"
           (newline ++ "Enjoy!")); reflexivity.
Defined.

Lemma plain_block_is_unwrapped_witness :
  json_text ("" ++ plain_fence ++ "[1, 2]" ++ closing_fence ++ "") = "[1, 2]".
Proof.
  apply (plain_block_is_unwrapped "" "[1, 2]" ""); reflexivity.
Defined.

Lemma unfenced_text_is_parsed_whole_witness :
  json_text "{ ``quoted`` }" = "{ ``quoted`` }".
Proof. apply unfenced_text_is_parsed_whole. reflexivity. Defined.

End GenerativeFacts.

(** * Properties of the page *)

Module PageFacts.
Import Server Page.

Local Open Scope string_scope.

Lemma split_commas_nonempty (s : string) : split_commas s <> [].
Proof.
  induction s as [|c s IH]; simpl; [discriminate|].
  destruct (Ascii.eqb c ","); [discriminate|].
  destruct (split_commas s); discriminate.
Qed.

Section Requests.

Variable up : catalogue.
Variable numeric_string_positive : string -> bool.
Variable trim : string -> string.

(** X19.  A request sent by the page always gets through the validation
    of [/api/recommend]: [titles] is a non-empty list of strings (the
    pieces between the commas, trimmed), no media type is sent, and the
    exchange is the manga assembler's with the two filter boxes passed on
    as strings. *)
Theorem page_request_reaches_manga (titlesInput preferencesInput genresInput
    excludeInput : string) (req_body : jsval) :
  submit trim titlesInput preferencesInput genresInput excludeInput
  = Some req_body ->
  map (fun title => JStr (trim title)) (split_commas (trim titlesInput)) <> [] /\
  recommend_try up numeric_string_positive req_body
  = getMangaRecommendations up numeric_string_positive
      (map (fun title => JStr (trim title)) (split_commas (trim titlesInput)))
      (JStr (trim genresInput)) (JStr (trim excludeInput)).
Proof.
  unfold submit. destruct (String.eqb (trim titlesInput) ""); [discriminate|].
  intros H. injection H as <-.
  assert (Hne : map (fun title => JStr (trim title))
                    (split_commas (trim titlesInput)) <> []).
  { pose proof (split_commas_nonempty (trim titlesInput)) as Hs.
    destruct (split_commas (trim titlesInput)); [congruence | discriminate]. }
  split; [exact Hne|].
  rewrite (ServerFacts.recommend_try_logged up numeric_string_positive _
             (fun name => lookup name
                [("titles", JArr (map (fun title => JStr (trim title))
                                      (split_commas (trim titlesInput))));
                 ("preferences", JStr (trim preferencesInput));
                 ("genres", JStr (trim genresInput));
                 ("exclude", JStr (trim excludeInput))])
             (map (fun title => JStr (trim title))
                  (split_commas (trim titlesInput)))
             "manga"
             (String.concat ", " (map trim (split_commas (trim titlesInput)))));
    [reflexivity | reflexivity | reflexivity | exact Hne | reflexivity
    | apply ServerFacts.join_strings_of_strings].
Qed.

(** X20.  Anything typed in the page's genre or exclusion box reaches the
    server as a non-empty string, which the first tier cannot use: it
    then contributes no entry, so every recommendation shown comes from
    the fallback tiers. *)
Theorem page_filters_empty_first_tier (titlesInput preferencesInput
    genresInput excludeInput : string) (req_body : jsval) :
  submit trim titlesInput preferencesInput genresInput excludeInput
  = Some req_body ->
  trim genresInput <> "" \/ trim excludeInput <> "" ->
  property "genres" req_body = Ok (JStr (trim genresInput)) /\
  property "exclude" req_body = Ok (JStr (trim excludeInput)) /\
  forall md titles id log log' recs,
    crowd_tier up numeric_string_positive md titles
      (JStr (trim genresInput)) (JStr (trim excludeInput)) id log
    = (Ok recs, log') ->
    recs = [].
Proof.
  unfold submit. destruct (String.eqb (trim titlesInput) ""); [discriminate|].
  intros H Hf. injection H as <-.
  split; [reflexivity|]. split; [reflexivity|].
  intros md titles id log log' recs.
  apply ServerExtras.first_tier_unusable.
  destruct Hf as [Hf|Hf]; [left|right];
    apply ServerExtras.nonempty_string_unusable; exact Hf.
Qed.

End Requests.

Lemma page_request_reaches_manga_witness :
  map (fun title => JStr title) (split_commas "Naruto,Bleach") <> [] /\
  recommend_try (demo_catalogue Manga) never_positive
    (JObj [("titles", JArr [JStr "Naruto"; JStr "Bleach"]);
           ("preferences", JStr ""); ("genres", JStr "action");
           ("exclude", JStr "")])
  = getMangaRecommendations (demo_catalogue Manga) never_positive
      (map (fun title => JStr title) (split_commas "Naruto,Bleach"))
      (JStr "action") (JStr "").
Proof.
  apply (page_request_reaches_manga (demo_catalogue Manga) never_positive
           (fun s => s) "Naruto,Bleach" "" "action" "").
  reflexivity.
Defined.

Lemma page_filters_empty_first_tier_witness :
  property "genres"
    (JObj [("titles", JArr [JStr "Naruto"; JStr "Bleach"]);
           ("preferences", JStr ""); ("genres", JStr "action");
           ("exclude", JStr "")]) = Ok (JStr "action") /\
  property "exclude"
    (JObj [("titles", JArr [JStr "Naruto"; JStr "Bleach"]);
           ("preferences", JStr ""); ("genres", JStr "action");
           ("exclude", JStr "")]) = Ok (JStr "") /\
  forall md titles id log log' recs,
    crowd_tier (demo_catalogue Manga) never_positive md titles
      (JStr "action") (JStr "") id log = (Ok recs, log') ->
    recs = [].
Proof.
  apply (page_filters_empty_first_tier (demo_catalogue Manga) never_positive
           (fun s => s) "Naruto,Bleach" "" "action" "").
  - reflexivity.
  - left. discriminate.
Defined.

End PageFacts.
